(** * Non-interactive default rules of the share layout (package [shares])

    A shallow embedding of the square-layout code: the aligner
    [NextAlignedPowerOfTwo], the packer [MsgSharesUsedNIDefaults], the
    predicate [FitsInSquare], the splitter [SplitMessagesUsingNIDefaults]
    and the helpers [roundUpBy], [nextPowerOfTwo], [nextLowestPowerOfTwo].

    Go's [int] is modelled as a 64-bit two's complement integer (its width
    on the 64-bit targets the module is built for): a value is a [Z] in
    [MinInt, MaxInt] and every arithmetic operation wraps around.  [uint32]
    conversions truncate modulo 2^32.  A run-time panic (integer division by
    zero) and a loop that never exits are outcomes of their own. *)

From Stdlib Require Import Strings.Byte.
From stdpp Require Import base numbers list strings.

Local Open Scope Z_scope.

(** ** Outcomes of a Go call *)

Inductive outcome (A : Type) : Type :=
| Ret (a : A)      (* the call returns [a] *)
| Panic            (* run-time panic: integer divide by zero *)
| OutOfFuel.       (* the loop did not exit within the fuel given *)

Arguments Ret {A} a.
Arguments Panic {A}.
Arguments OutOfFuel {A}.

#[global] Instance outcome_bind : MBind outcome := λ A B f m,
  match m with
  | Ret a => f a
  | Panic => Panic
  | OutOfFuel => OutOfFuel
  end.

(** ** Machine integers *)

Module GoInt.

Definition MaxInt : Z := 2 ^ 63 - 1.
Definition MinInt : Z := - 2 ^ 63.
Definition MaxUint32 : Z := 2 ^ 32 - 1.

(** Two's complement reduction of a mathematical integer to an [int]. *)
Definition wrap (z : Z) : Z := (z + 2 ^ 63) mod 2 ^ 64 - 2 ^ 63.

Definition is_int (z : Z) : Prop := MinInt ≤ z ≤ MaxInt.

Definition add (a b : Z) : Z := wrap (a + b).
Definition sub (a b : Z) : Z := wrap (a - b).
Definition mul (a b : Z) : Z := wrap (a * b).
Definition shl (a n : Z) : Z := wrap (Z.shiftl a n).

(** [a / b]: truncated division; panics on a zero divisor. *)
Definition div (a b : Z) : outcome Z :=
  if b =? 0 then Panic else Ret (wrap (Z.quot a b)).

(** [a % b]: remainder of the truncated division; panics on a zero divisor. *)
Definition rem (a b : Z) : outcome Z :=
  if b =? 0 then Panic else Ret (Z.rem a b).

(** [uint32(a)] *)
Definition uint32 (a : Z) : Z := a mod 2 ^ 32.

End GoInt.

Import GoInt.

(** [k] is a power of two (and so [k >= 1]). *)
Definition is_pow2 (k : Z) : Prop := 0 < k ∧ 2 ^ Z.log2 k = k.

(** ** Helpers *)

(** [func roundUpBy(cursor, v int) int] *)
Definition roundUpBy (cursor v : Z) : outcome Z :=
  if cursor =? 0 then Ret cursor
  else
    r ← rem cursor v;
    if r =? 0 then Ret cursor
    else
      q ← div cursor v;
      Ret (mul (add q 1) v).

(** The loop [for k < v { k = k << 1 }] of [nextPowerOfTwo]. *)
Fixpoint nextPowerOfTwo_loop (fuel : nat) (k v : Z) : outcome Z :=
  match fuel with
  | O => OutOfFuel
  | S fuel' =>
      if k <? v then nextPowerOfTwo_loop fuel' (shl k 1) v else Ret k
  end.

(** Enough iterations for every input: after 64 shifts [k] is [0] for good
    (see [nextPowerOfTwo_loop_fuel]). *)
Definition loop_fuel : nat := 66.

(** [func nextPowerOfTwo(v int) int] *)
Definition nextPowerOfTwo (v : Z) : outcome Z :=
  nextPowerOfTwo_loop loop_fuel 1 v.

(** [func nextLowestPowerOfTwo(v int) int] *)
Definition nextLowestPowerOfTwo (v : Z) : outcome Z :=
  c ← nextPowerOfTwo v;
  if c =? v then Ret c else div c 2.

(** ** Aligner *)

(** [func NextAlignedPowerOfTwo(cursor, msgLen, k int) (int, bool)] *)
Definition NextAlignedPowerOfTwo (cursor msgLen k : Z) : outcome (Z * bool) :=
  rowStart ← (if cursor =? 0 then Ret true
              else r ← rem cursor k; Ret (r =? 0));
  if rowStart : bool then Ret (cursor, true)
  else
    nextLowest ← nextLowestPowerOfTwo msgLen;
    q ← div cursor k;
    let endOfCurrentRow := mul (add q 1) k in
    cursor ← roundUpBy cursor nextLowest;
    if add cursor msgLen <=? endOfCurrentRow then Ret (cursor, true)
    else if add cursor nextLowest <=? endOfCurrentRow then Ret (cursor, false)
    else Ret (endOfCurrentRow, false).

(** ** Packer *)

(** The [for i, msgLen := range msgShareLens] loop of
    [MsgSharesUsedNIDefaults]: [i] is the index of the next length,
    [indexes] the slice allocated by [make] and written in place ([i] stays
    below its length, that of [msgShareLens]). *)
Fixpoint packer_loop (k : Z) (msgShareLens : list Z) (i : nat) (cursor : Z)
    (indexes : list Z) : outcome (Z * list Z) :=
  match msgShareLens with
  | [] => Ret (cursor, indexes)
  | msgLen :: rest =>
      '(cursor, _) ← NextAlignedPowerOfTwo cursor msgLen k;
      let indexes := <[i := uint32 cursor]> indexes in
      let cursor := add cursor msgLen in
      packer_loop k rest (S i) cursor indexes
  end.

(** [func MsgSharesUsedNIDefaults(cursor, origSquareSize int, msgShareLens ...int) (int, []uint32)] *)
Definition MsgSharesUsedNIDefaults (cursor origSquareSize : Z)
    (msgShareLens : list Z) : outcome (Z * list Z) :=
  let start := cursor in
  let indexes := replicate (length msgShareLens) 0 in
  '(cursor, indexes) ← packer_loop origSquareSize msgShareLens 0 cursor indexes;
  Ret (sub cursor start, indexes).

(** [func FitsInSquare(cursor, origSquareSize int, msgShareLens ...int) bool] *)
Definition FitsInSquare (cursor origSquareSize : Z) (msgShareLens : list Z)
    : outcome bool :=
  trivial ← (if bool_decide (length msgShareLens = 0%nat)
             then q ← div cursor origSquareSize; Ret (q <=? origSquareSize)
             else Ret false);
  if trivial : bool then Ret true
  else
    '(sharesUsed, _) ← MsgSharesUsedNIDefaults cursor origSquareSize msgShareLens;
    Ret (add cursor sharesUsed <=? mul origSquareSize origSquareSize).

(** ** Splitter *)

(** A Go slice value: [None] is the [nil] slice. *)
Definition slice (A : Type) : Type := option (list A).

(** [coretypes.Message] *)
Record Message : Type := {
  NamespaceID : list byte;
  Data : list byte;
}.

(** [len(msg.Data)] *)
Definition len_Data (msg : Message) : Z := Z.of_nat (length (Data msg)).

Definition square_too_small : string :=
  "failure to split messages: square size too small".

(** The share sizer and the share-serialization codec live in other files
    of the package: [MsgSharesUsed] and the [MessageShareSplitter] with its
    methods are taken as given, whatever they compute; as the specification
    has it, each of them returns (the row check is the only hard error). *)
Class ShareCodec : Type := {
  (** [func MsgSharesUsed(msgSize int) int] *)
  MsgSharesUsed : Z → Z;
  MessageShareSplitter : Type;
  NewMessageShareSplitter : MessageShareSplitter;
  WriteNamespacedPaddedShares : Z → MessageShareSplitter → MessageShareSplitter;
  Write : Message → MessageShareSplitter → MessageShareSplitter;
  (** [splitter.Export().RawShares()] *)
  ExportRawShares : MessageShareSplitter → slice (list byte);
}.

Section Splitter.

Context `{codec : ShareCodec}.

(** What a call of the Splitter returns: raw shares, indexes, error. *)
Definition split_result : Type := slice (list byte) * slice Z * option string.

(** The [for _, msg := range msgs] loop of [SplitMessagesUsingNIDefaults]
    and the final [return]. *)
Fixpoint splitter_loop (origSquareSize : Z) (msgs : list Message)
    (cursor : Z) (splitter : MessageShareSplitter) (indexes : list Z)
    : outcome split_result :=
  match msgs with
  | [] => Ret (ExportRawShares splitter, Some indexes, None)
  | msg :: rest =>
      row ← div cursor origSquareSize;
      if row >? origSquareSize
      then Ret (None, None, Some square_too_small)
      else
        let msgShares := MsgSharesUsed (len_Data msg) in
        '(nextCursor, _) ← NextAlignedPowerOfTwo cursor msgShares origSquareSize;
        let splitter := WriteNamespacedPaddedShares (sub nextCursor cursor) splitter in
        let splitter := Write msg splitter in
        let indexes := indexes ++ [uint32 nextCursor] in
        let cursor := add nextCursor msgShares in
        splitter_loop origSquareSize rest cursor splitter indexes
  end.

(** [func SplitMessagesUsingNIDefaults(cursor, origSquareSize int, msgs []coretypes.Message) ([][]byte, []uint32, error)] *)
Definition SplitMessagesUsingNIDefaults (cursor origSquareSize : Z)
    (msgs : list Message) : outcome split_result :=
  let indexes := [uint32 cursor] in
  let splitter := NewMessageShareSplitter in
  splitter_loop origSquareSize msgs cursor splitter indexes.

(** The share counts the Splitter computes for its messages. *)
Definition share_lens (msgs : list Message) : list Z :=
  (λ msg, MsgSharesUsed (len_Data msg)) <$> msgs.

(** [about_to_process k cursor msgs cursor' msg']: started with [cursor]
    on [msgs], the loop gets to the point where [msg'] is about to be
    processed with the running cursor [cursor']. *)
Inductive about_to_process (k : Z) : Z → list Message → Z → Message → Prop :=
| atp_head cursor msg rest :
    about_to_process k cursor (msg :: rest) cursor msg
| atp_tail cursor msg rest row nextCursor fits cursor' msg' :
    div cursor k = Ret row → row ≤ k →
    NextAlignedPowerOfTwo cursor (MsgSharesUsed (len_Data msg)) k
    = Ret (nextCursor, fits) →
    about_to_process k (add nextCursor (MsgSharesUsed (len_Data msg))) rest
      cursor' msg' →
    about_to_process k cursor (msg :: rest) cursor' msg'.

(** Some message is about to be processed with [cursor / k > k]. *)
Definition row_overflow (cursor k : Z) (msgs : list Message) : Prop :=
  ∃ cursor' msg' row,
    about_to_process k cursor msgs cursor' msg'
    ∧ div cursor' k = Ret row ∧ k < row.

(** Splitter and Packer agree on the indexes, the Splitter's list having
    the input cursor in front. *)
Definition splitter_agrees_with_packer (cursor k : Z) (msgs : list Message)
    : Prop :=
  ∀ rawShares indexes,
    SplitMessagesUsingNIDefaults cursor k msgs = Ret (rawShares, indexes, None) →
    ∃ total packed,
      MsgSharesUsedNIDefaults cursor k (share_lens msgs) = Ret (total, packed)
      ∧ indexes = Some (cursor :: packed).

End Splitter.

(** ** A codec to run the Splitter on

    Modelled from the spec: the ShareSizer and the share-serialization codec
    are not among these sources.  The sizer ceil-divides the byte length plus
    a length prefix by the payload capacity of a share (here a one-byte
    prefix and four payload bytes per share, the protocol's constants being
    defined elsewhere); the codec accumulates the shares written: one empty
    share per padding share, and the message bytes cut into shares. *)
Definition example_MsgSharesUsed (msgSize : Z) : Z := (msgSize + 1 + 3) / 4.

Fixpoint chunks (fuel : nat) (data : list byte) : list (list byte) :=
  match fuel, data with
  | S fuel', _ :: _ => take 4 data :: chunks fuel' (drop 4 data)
  | _, _ => []
  end.

Definition example_codec : ShareCodec := {|
  MsgSharesUsed := example_MsgSharesUsed;
  MessageShareSplitter := list (list byte);
  NewMessageShareSplitter := [];
  WriteNamespacedPaddedShares count shares := shares ++ replicate (Z.to_nat count) [];
  Write msg shares := shares ++ chunks (length (Data msg)) (Data msg);
  ExportRawShares shares := Some shares;
|}.

Definition example_msgs : list Message :=
  [ {| NamespaceID := [x01]; Data := [x0a; x0b; x0c] |};
    {| NamespaceID := [x02]; Data := [x10; x11; x12; x13; x14] |} ].

(** ** The Aligner as the specification words it

    Section 4.2 of the specification, over mathematical integers; the
    embedding of the code above is compared with it below. *)

Module Spec.

(** "the largest power of two <= msgShareLen" *)
Definition largest_pow2_le (msgShareLen : Z) : Z := 2 ^ Z.log2 msgShareLen.

(** "round cursor up to the next multiple of nextLowest" *)
Definition round_up (cursor v : Z) : Z := (cursor + v - 1) / v * v.

Definition nextAlignedStart (cursor msgShareLen k : Z) : Z * bool :=
  if cursor mod k =? 0 then (cursor, true)
  else
    let nextLowest := largest_pow2_le msgShareLen in
    let endOfRow := (cursor / k + 1) * k in
    let candidate := round_up cursor nextLowest in
    if candidate + msgShareLen <=? endOfRow then (candidate, true)
    else if candidate + nextLowest <=? endOfRow then (candidate, false)
    else (endOfRow, false).

End Spec.

(** ** The Packer loop as a recursion on the lengths

    The same loop as [packer_loop], with the index list built front to back
    instead of written into a preallocated slice ([packer_loop_run] shows
    that the two agree). *)
Fixpoint packer_run (k : Z) (msgShareLens : list Z) (cursor : Z)
    : outcome (Z * list Z) :=
  match msgShareLens with
  | [] => Ret (cursor, [])
  | msgLen :: rest =>
      '(start, _) ← NextAlignedPowerOfTwo cursor msgLen k;
      '(final, indexes) ← packer_run k rest (add start msgLen);
      Ret (final, uint32 start :: indexes)
  end.

(** Successive starts leave room for the messages: the first start is at
    least [cursor], and each next one at least the previous start plus the
    previous message's share count. *)
Fixpoint starts_chain (cursor : Z) (msgShareLens indexes : list Z) : Prop :=
  match msgShareLens, indexes with
  | [], [] => True
  | msgLen :: rest, start :: indexes =>
      cursor ≤ start ∧ starts_chain (start + msgLen) rest indexes
  | _, _ => False
  end.

(** An upper bound on the shares a packing pass can consume: each message
    takes its own shares and less than [k + msgLen] shares of padding. *)
Definition padded_total (k : Z) (msgShareLens : list Z) : Z :=
  foldr (λ msgLen acc, k + 2 * msgLen + acc) 0 msgShareLens.

(** The Packer's indexes are monotone in the sense of the specification. *)
Definition packer_monotone (cursor k : Z) (msgShareLens : list Z) : Prop :=
  ∃ total indexes,
    MsgSharesUsedNIDefaults cursor k msgShareLens = Ret (total, indexes)
    ∧ length indexes = length msgShareLens
    ∧ (∀ s, indexes !! 0%nat = Some s → cursor ≤ s)
    ∧ (∀ i s s' msgLen,
         indexes !! i = Some s → indexes !! S i = Some s' →
         msgShareLens !! i = Some msgLen → s + msgLen ≤ s')
    ∧ (∀ i s s',
         indexes !! i = Some s → indexes !! S i = Some s' → s ≤ s').

(** The shares the messages themselves take, padding aside. *)
Definition sum_lens (msgShareLens : list Z) : Z := foldr Z.add 0 msgShareLens.

(** ** Statements about the Aligner *)

(** The Aligner returns what section 4.2 prescribes. *)
Definition aligner_postcondition (cursor msgShareLen k : Z) : Prop :=
  NextAlignedPowerOfTwo cursor msgShareLen k
  = Ret (Spec.nextAlignedStart cursor msgShareLen k).

(** A start returned with [true] satisfies
    [s % nextLowestPowerOfTwo(msgShareLen) == 0]. *)
Definition whole_fit_aligned (cursor msgShareLen k : Z) : Prop :=
  ∀ s nextLowest,
    NextAlignedPowerOfTwo cursor msgShareLen k = Ret (s, true) →
    nextLowestPowerOfTwo msgShareLen = Ret nextLowest →
    rem s nextLowest = Ret 0.

(** The returned start is at most the beginning of the next row. *)
Definition start_within_next_row (cursor msgShareLen k : Z) : Prop :=
  ∃ s fits,
    NextAlignedPowerOfTwo cursor msgShareLen k = Ret (s, fits)
    ∧ s ≤ (cursor / k + 1) * k.

(** * Properties *)

Lemma bind_Ret {A B} (a : A) (f : A → outcome B) : Ret a ≫= f = f a.
Proof. done. Qed.

(** Reduce the binds whose left operand has been computed. *)
Ltac bind_steps := rewrite ?bind_Ret; cbv beta iota.

(** ** Machine arithmetic *)

Lemma wrap_small z : is_int z → wrap z = z.
Proof.
  unfold is_int, MinInt, MaxInt, wrap. intros Hz.
  rewrite Z.mod_small; lia.
Qed.

Lemma wrap_is_int z : is_int (wrap z).
Proof.
  unfold is_int, MinInt, MaxInt, wrap.
  pose proof (Z.mod_pos_bound (z + 2 ^ 63) (2 ^ 64)). lia.
Qed.

Lemma wrap_le z : 0 ≤ z → wrap z ≤ z.
Proof.
  intros Hz. destruct (Z.le_gt_cases z MaxInt) as [Hsmall|Hbig].
  - rewrite wrap_small; [done|]. unfold is_int, MinInt, MaxInt in *. lia.
  - pose proof (wrap_is_int z). unfold is_int, MinInt, MaxInt in *. lia.
Qed.

(** Reduction modulo 2^64 keeps divisibility by a power of two up to 2^64. *)
Lemma wrap_divide e z : 0 ≤ e ≤ 64 → (2 ^ e | z) → (2 ^ e | wrap z).
Proof.
  intros He Hz. unfold wrap.
  rewrite Z.mod_eq by lia.
  replace (z + 2 ^ 63 - 2 ^ 64 * ((z + 2 ^ 63) / 2 ^ 64) - 2 ^ 63)
    with (z - 2 ^ 64 * ((z + 2 ^ 63) / 2 ^ 64)) by lia.
  apply Z.divide_sub_r; [done|].
  apply Z.divide_mul_l.
  replace 64 with (e + (64 - e)) by lia.
  rewrite Z.pow_add_r by lia. by apply Z.divide_mul_l.
Qed.

Lemma is_pow2_exp k : is_pow2 k ↔ ∃ e, 0 ≤ e ∧ k = 2 ^ e.
Proof.
  split.
  - intros [Hk He]. exists (Z.log2 k). split; [apply Z.log2_nonneg | done].
  - intros (e & He & ->). split; [by apply Z.pow_pos_nonneg|].
    by rewrite Z.log2_pow2.
Qed.

(** ** The doubling loop *)

Lemma shl_pow2 i : 0 ≤ i < 62 → shl (2 ^ i) 1 = 2 ^ (i + 1).
Proof.
  intros Hi. unfold shl. rewrite Z.shiftl_mul_pow2 by lia.
  rewrite Z.pow_add_r by lia.
  apply wrap_small. unfold is_int, MinInt, MaxInt.
  assert (2 ^ i * 2 ^ 1 = 2 ^ (i + 1)) as -> by (rewrite Z.pow_add_r; lia).
  assert (0 < 2 ^ (i + 1)) by (apply Z.pow_pos_nonneg; lia).
  assert (2 ^ (i + 1) ≤ 2 ^ 62) by (apply Z.pow_le_mono_r; lia).
  lia.
Qed.

(** For [v <= 2^62] the loop started at [2^i] stops at the first power of
    two that is at least [v]. *)
Lemma nextPowerOfTwo_loop_ret fuel : ∀ i v,
  0 ≤ i ≤ 62 → v ≤ 2 ^ 62 → (i = 0 ∨ 2 ^ (i - 1) < v) →
  62 - i < Z.of_nat fuel →
  ∃ j, i ≤ j ≤ 62 ∧ nextPowerOfTwo_loop fuel (2 ^ i) v = Ret (2 ^ j)
       ∧ v ≤ 2 ^ j ∧ (j = 0 ∨ 2 ^ (j - 1) < v).
Proof.
  induction fuel as [|fuel IH]; intros i v Hi Hv Hlow Hfuel; [lia|].
  simpl. destruct (Z.ltb_spec (2 ^ i) v) as [Hlt|Hge].
  - assert (i < 62) as Hi62.
    { apply (Z.pow_lt_mono_r_iff 2); lia. }
    rewrite shl_pow2 by lia.
    destruct (IH (i + 1) v) as (j & Hj & Hret & Hub & Hlb); try lia.
    { right. by replace (i + 1 - 1) with i by lia. }
    exists j. repeat split; try done; lia.
  - exists i. repeat split; try done; lia.
Qed.

Lemma nextPowerOfTwo_loop_zero fuel v :
  0 < v → nextPowerOfTwo_loop fuel 0 v = OutOfFuel.
Proof.
  intros Hv. induction fuel as [|fuel IH]; [done|].
  simpl. destruct (Z.ltb_spec 0 v); [|lia]. apply IH.
Qed.

Lemma nextPowerOfTwo_loop_min fuel v :
  0 < v → nextPowerOfTwo_loop fuel (- 2 ^ 63) v = OutOfFuel.
Proof.
  intros Hv. destruct fuel as [|fuel]; [done|].
  simpl. destruct (Z.ltb_spec (- 2 ^ 63) v); [|lia].
  by apply nextPowerOfTwo_loop_zero.
Qed.

(** Above [2^62] the shift overflows to [MinInt], then to [0], where the
    loop stays: no amount of fuel yields a result. *)
Lemma nextPowerOfTwo_loop_diverges fuel : ∀ i v,
  0 ≤ i ≤ 62 → 2 ^ 62 < v → nextPowerOfTwo_loop fuel (2 ^ i) v = OutOfFuel.
Proof.
  induction fuel as [|fuel IH]; intros i v Hi Hv; [done|].
  simpl.
  assert (2 ^ i ≤ 2 ^ 62) by (apply Z.pow_le_mono_r; lia).
  destruct (Z.ltb_spec (2 ^ i) v); [|lia].
  destruct (decide (i = 62)) as [->|Hne].
  - change (shl (2 ^ 62) 1) with (- 2 ^ 63).
    apply nextPowerOfTwo_loop_min. lia.
  - rewrite shl_pow2 by lia. apply IH; lia.
Qed.

Lemma nextPowerOfTwo_loop_mono fuel : ∀ k v r (n : nat),
  nextPowerOfTwo_loop fuel k v = Ret r →
  nextPowerOfTwo_loop (fuel + n) k v = Ret r.
Proof.
  induction fuel as [|fuel IH]; intros k v r n; [done|].
  simpl. destruct (k <? v); [apply IH | done].
Qed.

(** [loop_fuel] iterations decide the loop: more fuel never changes the
    outcome, so [OutOfFuel] from [nextPowerOfTwo] is a loop that never exits. *)
Lemma nextPowerOfTwo_loop_fuel fuel v :
  (loop_fuel ≤ fuel)%nat → nextPowerOfTwo_loop fuel 1 v = nextPowerOfTwo v.
Proof.
  intros Hfuel. unfold nextPowerOfTwo.
  destruct (Z.le_gt_cases v (2 ^ 62)) as [Hv|Hv].
  - destruct (nextPowerOfTwo_loop_ret loop_fuel 0 v) as (j & _ & Hret & _);
      [lia | done | by left | unfold loop_fuel; lia |].
    change (2 ^ 0) with 1 in Hret. rewrite Hret.
    replace fuel with (loop_fuel + (fuel - loop_fuel))%nat by lia.
    by apply nextPowerOfTwo_loop_mono.
  - change 1 with (2 ^ 0).
    rewrite !nextPowerOfTwo_loop_diverges; [done | lia | lia | lia | lia].
Qed.

Lemma nextPowerOfTwo_spec v :
  v ≤ 2 ^ 62 →
  ∃ j, 0 ≤ j ≤ 62 ∧ nextPowerOfTwo v = Ret (2 ^ j)
       ∧ v ≤ 2 ^ j ∧ (j = 0 ∨ 2 ^ (j - 1) < v).
Proof.
  intros Hv. unfold nextPowerOfTwo. change 1 with (2 ^ 0).
  apply nextPowerOfTwo_loop_ret; [lia | done | by left | unfold loop_fuel; lia].
Qed.

Lemma nextPowerOfTwo_diverges v : 2 ^ 62 < v → nextPowerOfTwo v = OutOfFuel.
Proof.
  intros Hv. unfold nextPowerOfTwo. change 1 with (2 ^ 0).
  apply nextPowerOfTwo_loop_diverges; lia.
Qed.

(** For [1 <= v <= 2^62], [nextLowestPowerOfTwo v] is the power of two
    [2^e] with [2^e <= v < 2^(e+1)]. *)
Lemma nextLowestPowerOfTwo_spec v :
  1 ≤ v ≤ 2 ^ 62 →
  ∃ e, 0 ≤ e ≤ 62 ∧ nextLowestPowerOfTwo v = Ret (2 ^ e)
       ∧ 2 ^ e ≤ v < 2 ^ (e + 1).
Proof.
  intros [Hv1 Hv2]. unfold nextLowestPowerOfTwo.
  destruct (nextPowerOfTwo_spec v Hv2) as (j & Hj & -> & Hub & Hlb).
  cbn. destruct (Z.eqb_spec (2 ^ j) v) as [Heq|Hne].
  - exists j. split; [lia|]. split; [done|]. split; [lia|].
    rewrite <- Heq. apply Z.pow_lt_mono_r; lia.
  - destruct Hlb as [->|Hlb]; [change (2 ^ 0) with 1 in *; lia|].
    assert (1 ≤ j) as Hj1.
    { destruct (decide (j ≤ 0)); [|lia].
      assert (j = 0) as -> by lia. change (2 ^ 0) with 1 in *. lia. }
    exists (j - 1). replace (j - 1 + 1) with j by lia.
    assert (2 ^ j = 2 * 2 ^ (j - 1)) as Hpow.
    { replace j with (1 + (j - 1)) at 1 by lia. rewrite Z.pow_add_r; lia. }
    assert (0 < 2 ^ (j - 1)) by (apply Z.pow_pos_nonneg; lia).
    assert (2 ^ (j - 1) ≤ 2 ^ 62) by (apply Z.pow_le_mono_r; lia).
    split; [lia|]. split; [|lia].
    unfold div. cbn. f_equal.
    rewrite Hpow, Z.mul_comm, Z.quot_mul by lia.
    apply wrap_small. unfold is_int, MinInt, MaxInt. lia.
Qed.

Lemma nextLowestPowerOfTwo_ret v nl :
  nextLowestPowerOfTwo v = Ret nl → v ≤ 2 ^ 62.
Proof.
  intros Hret. destruct (Z.le_gt_cases v (2 ^ 62)) as [|Hv]; [done|].
  unfold nextLowestPowerOfTwo in Hret.
  by rewrite nextPowerOfTwo_diverges in Hret.
Qed.

(** ** The specification's auxiliary notions are the intended ones *)

Lemma largest_pow2_le_spec m :
  1 ≤ m →
  is_pow2 (Spec.largest_pow2_le m) ∧ Spec.largest_pow2_le m ≤ m
  ∧ ∀ p, is_pow2 p → p ≤ m → p ≤ Spec.largest_pow2_le m.
Proof.
  intros Hm. unfold Spec.largest_pow2_le.
  pose proof (Z.log2_nonneg m) as Hlog.
  destruct (Z.log2_spec m) as [Hlo Hhi]; [lia|].
  split; [|split; [done|]].
  - apply is_pow2_exp. eauto.
  - intros p [e [He ->]]%is_pow2_exp Hp.
    apply Z.pow_le_mono_r; [lia|].
    assert (e < Z.succ (Z.log2 m)); [|lia].
    apply (Z.pow_lt_mono_r_iff 2); lia.
Qed.

Lemma round_up_cases c v :
  0 < v → Spec.round_up c v = if c mod v =? 0 then c else (c / v + 1) * v.
Proof.
  intros Hv. unfold Spec.round_up.
  pose proof (Z.div_mod c v ltac:(lia)) as Hdm. pose proof (Z.mod_pos_bound c v Hv) as Hr.
  destruct (Z.eqb_spec (c mod v) 0) as [H0|Hn0].
  - rewrite <- (Z.div_unique (c + v - 1) v (c / v) (v - 1)); lia.
  - rewrite <- (Z.div_unique (c + v - 1) v (c / v + 1) (c mod v - 1)); lia.
Qed.

Lemma round_up_spec c v :
  0 < v →
  (v | Spec.round_up c v) ∧ c ≤ Spec.round_up c v
  ∧ ∀ x, (v | x) → c ≤ x → Spec.round_up c v ≤ x.
Proof.
  intros Hv. rewrite round_up_cases by done.
  pose proof (Z.div_mod c v ltac:(lia)) as Hdm. pose proof (Z.mod_pos_bound c v Hv) as Hr.
  destruct (Z.eqb_spec (c mod v) 0) as [H0|Hn0].
  - split; [|split; [lia | by intros]].
    exists (c / v). lia.
  - split; [by apply Z.divide_mul_r|]. split; [nia|].
    intros x [y ->] Hx.
    assert (c / v < y); [|nia].
    apply Z.div_lt_upper_bound; [done|].
    destruct (decide (c = y * v)) as [->|]; [|lia].
    by rewrite Z.mod_mul in Hn0 by lia.
Qed.

Lemma round_up_bounds c v :
  0 < v → c ≤ Spec.round_up c v < c + v.
Proof.
  intros Hv. rewrite round_up_cases by done.
  pose proof (Z.div_mod c v ltac:(lia)) as Hdm. pose proof (Z.mod_pos_bound c v Hv) as Hr.
  destruct (Z.eqb_spec (c mod v) 0); nia.
Qed.

(** ** Operations that stay in range *)

Lemma add_small a b : is_int (a + b) → add a b = a + b.
Proof. apply wrap_small. Qed.

Lemma mul_small a b : is_int (a * b) → mul a b = a * b.
Proof. apply wrap_small. Qed.

Lemma div_nonneg a b :
  0 ≤ a ≤ MaxInt → 0 < b → div a b = Ret (a / b).
Proof.
  intros Ha Hb. unfold div. destruct (Z.eqb_spec b 0); [lia|].
  rewrite Z.quot_div_nonneg by lia. f_equal. apply wrap_small.
  assert (0 ≤ a / b) by (apply Z.div_pos; lia).
  assert (a / b ≤ a) by (apply Z.div_le_upper_bound; nia).
  unfold is_int, MinInt, MaxInt in *. lia.
Qed.

Lemma rem_nonneg a b : 0 ≤ a → 0 < b → rem a b = Ret (a mod b).
Proof.
  intros Ha Hb. unfold rem. destruct (Z.eqb_spec b 0); [lia|].
  by rewrite Z.rem_mod_nonneg by lia.
Qed.

Lemma roundUpBy_spec cursor v :
  0 ≤ cursor → 0 < v → cursor + v ≤ MaxInt →
  roundUpBy cursor v = Ret (Spec.round_up cursor v).
Proof.
  intros Hc Hv Hmax. rewrite round_up_cases by done. unfold roundUpBy.
  destruct (Z.eqb_spec cursor 0) as [->|Hc0].
  { by rewrite Z.mod_0_l by lia. }
  rewrite rem_nonneg by lia. cbn.
  destruct (Z.eqb_spec (cursor mod v) 0) as [|Hr]; [done|].
  rewrite div_nonneg by lia. cbn. f_equal.
  pose proof (Z.div_mod cursor v ltac:(lia)) as Hdm.
  pose proof (Z.mod_pos_bound cursor v Hv) as Hrb.
  assert (0 ≤ cursor / v) by (apply Z.div_pos; lia).
  rewrite add_small, mul_small; [done| |]; unfold is_int, MinInt, MaxInt in *; nia.
Qed.

(** ** The Aligner in the range free of overflow *)

Lemma nextLowestPowerOfTwo_largest msgLen :
  1 ≤ msgLen ≤ 2 ^ 62 →
  nextLowestPowerOfTwo msgLen = Ret (Spec.largest_pow2_le msgLen).
Proof.
  intros Hm. destruct (nextLowestPowerOfTwo_spec msgLen Hm) as (e & He & -> & Hb).
  unfold Spec.largest_pow2_le. do 2 f_equal. symmetry.
  apply Z.log2_unique; [lia|]. by replace (Z.succ e) with (e + 1) by lia.
Qed.

Lemma largest_pow2_le_bounds m :
  1 ≤ m → 1 ≤ Spec.largest_pow2_le m ≤ m.
Proof.
  intros Hm. destruct (largest_pow2_le_spec m Hm) as ([Hpos _] & Hle & _). lia.
Qed.

Lemma end_of_row_bounds cursor k :
  0 ≤ cursor → 0 < k → cursor < (cursor / k + 1) * k ≤ cursor + k.
Proof.
  intros Hc Hk.
  pose proof (Z.div_mod cursor k ltac:(lia)). pose proof (Z.mod_pos_bound cursor k Hk).
  nia.
Qed.

(** With room for twice the message after the cursor, only the end of the
    row can overflow: the Aligner is the specification's algorithm run with
    the end of the row reduced to an [int]. *)
Lemma NextAlignedPowerOfTwo_wrapped_row cursor msgLen k :
  0 ≤ cursor → 1 ≤ msgLen → 1 ≤ k → cursor + 2 * msgLen ≤ MaxInt →
  NextAlignedPowerOfTwo cursor msgLen k
  = Ret (if cursor mod k =? 0 then (cursor, true)
         else
           let nextLowest := Spec.largest_pow2_le msgLen in
           let endOfRow := wrap ((cursor / k + 1) * k) in
           let candidate := Spec.round_up cursor nextLowest in
           if candidate + msgLen <=? endOfRow then (candidate, true)
           else if candidate + nextLowest <=? endOfRow then (candidate, false)
           else (endOfRow, false)).
Proof.
  intros Hc Hm Hk Hmsg.
  unfold NextAlignedPowerOfTwo.
  assert (msgLen ≤ 2 ^ 62) as Hm62 by (unfold MaxInt in *; lia).
  destruct (Z.eqb_spec cursor 0) as [->|Hc0].
  { bind_steps. by rewrite Z.mod_0_l by lia. }
  rewrite rem_nonneg by lia. bind_steps.
  destruct (Z.eqb_spec (cursor mod k) 0) as [|Hr]; [done|].
  rewrite nextLowestPowerOfTwo_largest by lia. bind_steps.
  pose proof (largest_pow2_le_bounds msgLen Hm) as Hnl.
  set (nl := Spec.largest_pow2_le msgLen) in *.
  rewrite div_nonneg by lia. bind_steps.
  assert (0 ≤ cursor / k) by (apply Z.div_pos; lia).
  assert (cursor / k ≤ cursor) by (apply Z.div_le_upper_bound; nia).
  rewrite (add_small (cursor / k) 1)
    by (unfold is_int, MinInt, MaxInt in *; lia).
  unfold mul. set (endOfRow := wrap ((cursor / k + 1) * k)).
  rewrite roundUpBy_spec by lia. bind_steps.
  pose proof (round_up_bounds cursor nl ltac:(lia)) as Hru.
  set (candidate := Spec.round_up cursor nl) in *.
  rewrite !add_small by (unfold is_int, MinInt, MaxInt in *; lia).
  destruct (candidate + msgLen <=? endOfRow); [done|].
  by destruct (candidate + nl <=? endOfRow).
Qed.

Lemma NextAlignedPowerOfTwo_refines cursor msgLen k :
  0 ≤ cursor → 1 ≤ msgLen → 1 ≤ k →
  (cursor / k + 1) * k ≤ MaxInt → cursor + 2 * msgLen ≤ MaxInt →
  NextAlignedPowerOfTwo cursor msgLen k
  = Ret (Spec.nextAlignedStart cursor msgLen k).
Proof.
  intros Hc Hm Hk Hrow Hmsg.
  rewrite NextAlignedPowerOfTwo_wrapped_row by done.
  unfold Spec.nextAlignedStart. cbv zeta.
  pose proof (end_of_row_bounds cursor k Hc ltac:(lia)) as Hend.
  rewrite wrap_small; [done|]. unfold is_int, MinInt, MaxInt in *. lia.
Qed.

(** Where the start lies, for the specification's Aligner. *)
Lemma nextAlignedStart_bounds cursor msgLen k :
  0 ≤ cursor → 1 ≤ msgLen → 1 ≤ k →
  let s := (Spec.nextAlignedStart cursor msgLen k).1 in
  cursor ≤ s ∧ s ≤ (cursor / k + 1) * k ∧ s < cursor + msgLen + k.
Proof.
  intros Hc Hm Hk. unfold Spec.nextAlignedStart.
  pose proof (end_of_row_bounds cursor k Hc ltac:(lia)) as Hend.
  pose proof (largest_pow2_le_bounds msgLen Hm) as Hnl.
  pose proof (round_up_bounds cursor (Spec.largest_pow2_le msgLen) ltac:(lia)) as Hru.
  destruct (cursor mod k =? 0); [cbn; lia|].
  destruct (Z.leb_spec (Spec.round_up cursor (Spec.largest_pow2_le msgLen) + msgLen)
              ((cursor / k + 1) * k)); [cbn; lia|].
  destruct (Z.leb_spec (Spec.round_up cursor (Spec.largest_pow2_le msgLen)
                        + Spec.largest_pow2_le msgLen)
              ((cursor / k + 1) * k)); cbn; lia.
Qed.

(** ** Claims about the Aligner *)

(** At a row start the Aligner returns the cursor, whatever the message
    length and without any bound on the arguments. *)
Lemma NextAlignedPowerOfTwo_row_start cursor msgLen k :
  0 ≤ cursor → 0 < k → cursor mod k = 0 →
  NextAlignedPowerOfTwo cursor msgLen k = Ret (cursor, true).
Proof.
  intros Hc Hk Hrow. unfold NextAlignedPowerOfTwo.
  destruct (Z.eqb_spec cursor 0); [done|].
  rewrite rem_nonneg by lia. bind_steps. by rewrite Hrow.
Qed.

(** C1 (amended): for every cursor >= 0, message share-length >= 0 and
    power-of-two k, [NextAlignedPowerOfTwo] returns (cursor, true) when
    cursor % k == 0; otherwise, for a share-length >= 1 in the range where
    the 64-bit arithmetic does not overflow (endOfRow <= MaxInt and
    cursor + 2 * msgShareLen <= MaxInt), with nextLowest the largest power
    of two <= msgShareLen, endOfRow = (cursor / k + 1) * k and candidate =
    cursor rounded up to a multiple of nextLowest, it returns
    (candidate, true) if candidate + msgShareLen <= endOfRow, else
    (candidate, false) if candidate + nextLowest <= endOfRow, else
    (endOfRow, false). *)
Theorem NextAlignedPowerOfTwo_postcondition cursor msgShareLen k :
  0 ≤ cursor → 0 ≤ msgShareLen → is_pow2 k →
  cursor mod k = 0
  ∨ (1 ≤ msgShareLen ∧ (cursor / k + 1) * k ≤ MaxInt
     ∧ cursor + 2 * msgShareLen ≤ MaxInt) →
  aligner_postcondition cursor msgShareLen k.
Proof.
  intros Hc Hm [Hk _] [Hrow|(Hm1 & Hrow & Hmsg)]; unfold aligner_postcondition.
  - rewrite NextAlignedPowerOfTwo_row_start by done.
    unfold Spec.nextAlignedStart. by rewrite Hrow.
  - apply NextAlignedPowerOfTwo_refines; lia.
Qed.

Lemma NextAlignedPowerOfTwo_postcondition_witness :
  (0 ≤ 5 ∧ 0 ≤ 2 ∧ is_pow2 8
   ∧ (5 mod 8 = 0
      ∨ (1 ≤ 2 ∧ (5 / 8 + 1) * 8 ≤ MaxInt ∧ 5 + 2 * 2 ≤ MaxInt)))
  ∧ NextAlignedPowerOfTwo 5 2 8 = Ret (6, true).
Proof.
  assert (0 ≤ 5 ∧ 0 ≤ 2 ∧ is_pow2 8
          ∧ (5 mod 8 = 0
             ∨ (1 ≤ 2 ∧ (5 / 8 + 1) * 8 ≤ MaxInt ∧ 5 + 2 * 2 ≤ MaxInt))) as H.
  { split; [lia|]. split; [lia|]. split; [split; [lia | reflexivity]|].
    right. split; [lia|]. split; by vm_compute. }
  split; [exact H|].
  destruct H as (H1 & H2 & H3 & H4).
  exact (NextAlignedPowerOfTwo_postcondition 5 2 8 H1 H2 H3 H4).
Defined.

(** C1 as stated fails: with a zero share-length away from a row start the
    call panics (division by zero in [roundUpBy]); near [MaxInt] the sum
    candidate + msgShareLen wraps around, so that (3 * 2^61, true) is
    returned where the algorithm prescribes (2^62 + 2, false); and in the
    last row below 2^63 the end of the row wraps around to [MinInt], which
    is returned where the algorithm prescribes (2^63 - 3, true). *)
Lemma NextAlignedPowerOfTwo_postcondition_counterexample :
  (NextAlignedPowerOfTwo 1 0 4 = Panic ∧ ¬ aligner_postcondition 1 0 4)
  ∧ (NextAlignedPowerOfTwo (2 ^ 62 + 1) (2 ^ 62 - 1) 2 = Ret (3 * 2 ^ 61, true)
     ∧ Spec.nextAlignedStart (2 ^ 62 + 1) (2 ^ 62 - 1) 2 = (2 ^ 62 + 2, false)
     ∧ ¬ aligner_postcondition (2 ^ 62 + 1) (2 ^ 62 - 1) 2)
  ∧ (NextAlignedPowerOfTwo (2 ^ 63 - 3) 1 4 = Ret (MinInt, false)
     ∧ Spec.nextAlignedStart (2 ^ 63 - 3) 1 4 = (2 ^ 63 - 3, true)
     ∧ ¬ aligner_postcondition (2 ^ 63 - 3) 1 4).
Proof.
  unfold aligner_postcondition.
  split; [split | split; [split; [|split] | split; [|split]]];
    vm_compute; (reflexivity || discriminate).
Qed.

Lemma pow2_divide e f : 0 ≤ e ≤ f → (2 ^ e | 2 ^ f).
Proof.
  intros H. exists (2 ^ (f - e)). rewrite <- Z.pow_add_r by lia. f_equal. lia.
Qed.

(** The machine [roundUpBy] lands on a multiple of a power of two up to
    [2^62], overflow or not. *)
Lemma roundUpBy_divide cursor e s :
  0 ≤ e ≤ 62 → roundUpBy cursor (2 ^ e) = Ret s → (2 ^ e | s).
Proof.
  intros He. unfold roundUpBy.
  assert (0 < 2 ^ e) as Hpos by (apply Z.pow_pos_nonneg; lia).
  destruct (Z.eqb_spec cursor 0) as [->|Hc0].
  { intros [= <-]. apply Z.divide_0_r. }
  unfold rem, div. destruct (Z.eqb_spec (2 ^ e) 0); [lia|]. bind_steps.
  destruct (Z.eqb_spec (Z.rem cursor (2 ^ e)) 0) as [Hr|Hr].
  - intros [= <-]. apply Z.rem_divide; [lia | done].
  - bind_steps. intros [= <-]. unfold mul.
    apply wrap_divide; [lia|]. apply Z.divide_mul_r, Z.divide_refl.
Qed.

(** C3 (amended): for every cursor, message share-length and power-of-two
    k, whenever [NextAlignedPowerOfTwo] returns (s, true): at a row start
    (cursor % k == 0) s is the cursor itself, whatever the message length;
    for a share-length >= 1 and a cursor away from a row start,
    nextLowestPowerOfTwo(msgShareLen) returns and
    s % nextLowestPowerOfTwo(msgShareLen) == 0; and for a share-length >= 1
    with nextLowestPowerOfTwo(msgShareLen) <= k,
    s % nextLowestPowerOfTwo(msgShareLen) == 0 at a row start as well. *)
Theorem NextAlignedPowerOfTwo_whole_fit_aligned cursor msgShareLen k s :
  is_pow2 k →
  NextAlignedPowerOfTwo cursor msgShareLen k = Ret (s, true) →
  (Z.rem cursor k = 0 → s = cursor)
  ∧ (1 ≤ msgShareLen → Z.rem cursor k ≠ 0 →
     ∃ nextLowest,
       nextLowestPowerOfTwo msgShareLen = Ret nextLowest
       ∧ rem s nextLowest = Ret 0)
  ∧ (1 ≤ msgShareLen →
     ∀ nextLowest,
       nextLowestPowerOfTwo msgShareLen = Ret nextLowest → nextLowest ≤ k →
       rem s nextLowest = Ret 0).
Proof.
  intros [f [Hf ->]]%is_pow2_exp Hret.
  assert (0 < 2 ^ f) as Hkpos by (apply Z.pow_pos_nonneg; lia).
  assert (∀ e, 0 ≤ e ≤ 62 → (2 ^ e | s) → rem s (2 ^ e) = Ret 0) as Hrem.
  { intros e He Hdiv. assert (0 < 2 ^ e) by (apply Z.pow_pos_nonneg; lia).
    unfold rem. destruct (Z.eqb_spec (2 ^ e) 0); [lia|].
    f_equal. apply Z.rem_divide; [lia | done]. }
  split; [|split].
  - intros Hrow. revert Hret. unfold NextAlignedPowerOfTwo, rem.
    destruct (Z.eqb_spec (2 ^ f) 0); [lia|].
    destruct (cursor =? 0); bind_steps; [congruence|].
    rewrite Hrow. simpl. congruence.
  - intros Hm Hrow. revert Hret. unfold NextAlignedPowerOfTwo.
    destruct (Z.eqb_spec cursor 0) as [->|Hc0].
    { by rewrite Z.rem_0_l in Hrow by lia. }
    unfold rem at 1. destruct (Z.eqb_spec (2 ^ f) 0); [lia|]. bind_steps.
    destruct (Z.eqb_spec (Z.rem cursor (2 ^ f)) 0) as [|_]; [done|].
    destruct (nextLowestPowerOfTwo msgShareLen) as [nl| |] eqn:Hnl; [|done|done].
    pose proof (nextLowestPowerOfTwo_ret _ _ Hnl) as Hm62.
    destruct (nextLowestPowerOfTwo_spec msgShareLen ltac:(lia)) as (e & He & Hnl' & Hb).
    rewrite Hnl' in Hnl. injection Hnl as <-. bind_steps.
    unfold div. destruct (Z.eqb_spec (2 ^ f) 0); [lia|]. bind_steps.
    destruct (roundUpBy cursor (2 ^ e)) as [c| |] eqn:Hround; [|done|done].
    bind_steps. apply roundUpBy_divide in Hround; [|lia].
    intros Hret. exists (2 ^ e). split; [done|]. apply Hrem; [done|].
    revert Hret. destruct (_ <=? _); [by intros [= <-]|].
    by destruct (_ <=? _).
  - intros Hm nextLowest Hnl Hle.
    pose proof (nextLowestPowerOfTwo_ret _ _ Hnl) as Hm62.
    destruct (nextLowestPowerOfTwo_spec msgShareLen ltac:(lia)) as (e & He & Hnl' & Hb).
    rewrite Hnl' in Hnl. injection Hnl as <-.
    assert (0 < 2 ^ e) as Hpos by (apply Z.pow_pos_nonneg; lia).
    apply Hrem; [done|].
    revert Hret. unfold NextAlignedPowerOfTwo.
    destruct (Z.eqb_spec cursor 0) as [->|Hc0].
    { bind_steps. intros [= <-]. apply Z.divide_0_r. }
    unfold rem at 1. destruct (Z.eqb_spec (2 ^ f) 0); [lia|]. bind_steps.
    destruct (Z.eqb_spec (Z.rem cursor (2 ^ f)) 0) as [Hr|Hr].
    + intros [= <-]. apply Z.divide_trans with (2 ^ f).
      * apply pow2_divide. split; [lia|].
        apply (Z.pow_le_mono_r_iff 2); lia.
      * apply Z.rem_divide; [lia | done].
    + rewrite Hnl'. unfold div. destruct (Z.eqb_spec (2 ^ f) 0); [lia|]. bind_steps.
      destruct (roundUpBy cursor (2 ^ e)) as [c| |] eqn:Hround; [|done|done].
      bind_steps. apply roundUpBy_divide in Hround; [|lia].
      destruct (_ <=? _); [by intros [= <-]|].
      by destruct (_ <=? _).
Qed.

Lemma NextAlignedPowerOfTwo_whole_fit_aligned_witness :
  (is_pow2 8 ∧ NextAlignedPowerOfTwo 5 2 8 = Ret (6, true))
  ∧ (Z.rem 5 8 = 0 → 6 = 5)
  ∧ (1 ≤ 2 → Z.rem 5 8 ≠ 0 →
     ∃ nextLowest,
       nextLowestPowerOfTwo 2 = Ret nextLowest ∧ rem 6 nextLowest = Ret 0)
  ∧ (1 ≤ 2 →
     ∀ nextLowest,
       nextLowestPowerOfTwo 2 = Ret nextLowest → nextLowest ≤ 8 →
       rem 6 nextLowest = Ret 0).
Proof.
  assert (is_pow2 8 ∧ NextAlignedPowerOfTwo 5 2 8 = Ret (6, true)) as H.
  { split; [split; [lia | reflexivity] | reflexivity]. }
  split; [exact H|].
  destruct H as (H1 & H2).
  exact (NextAlignedPowerOfTwo_whole_fit_aligned 5 2 8 6 H1 H2).
Defined.

(** C3 as stated fails at a row start when the message is longer than the
    row: [NextAlignedPowerOfTwo 4 8 4] returns (4, true) while
    [nextLowestPowerOfTwo 8] is 8, and 4 % 8 = 4.  With a zero share-length
    [nextLowestPowerOfTwo] is 0 and [s % 0] is not even defined. *)
Lemma NextAlignedPowerOfTwo_whole_fit_aligned_counterexample :
  (NextAlignedPowerOfTwo 4 8 4 = Ret (4, true)
   ∧ nextLowestPowerOfTwo 8 = Ret 8
   ∧ rem 4 8 = Ret 4
   ∧ ¬ whole_fit_aligned 4 8 4)
  ∧ (NextAlignedPowerOfTwo 4 0 4 = Ret (4, true)
     ∧ nextLowestPowerOfTwo 0 = Ret 0
     ∧ ¬ whole_fit_aligned 4 0 4).
Proof.
  split; [split; [|split; [|split]] | split; [|split]];
    try (vm_compute; reflexivity).
  - intros H. by specialize (H 4 8 eq_refl eq_refl).
  - intros H. by specialize (H 4 0 eq_refl eq_refl).
Qed.

(** C6 (amended): with k = 4, cursor = 3 and message share-length 2 the
    Aligner returns (4, false): the message is deferred to the start of
    the next row, and the boolean is false because the message does not fit
    on the current row. *)
Theorem NextAlignedPowerOfTwo_3_2_4 :
  NextAlignedPowerOfTwo 3 2 4 = Ret (4, false).
Proof. vm_compute. reflexivity. Qed.

(** C6 as stated fails: the returned boolean is not true. *)
Lemma NextAlignedPowerOfTwo_3_2_4_counterexample :
  NextAlignedPowerOfTwo 3 2 4 ≠ Ret (4, true).
Proof. vm_compute. discriminate. Qed.

(** C9 (amended): for every cursor >= 0, message share-length >= 1 and
    power-of-two k with cursor + 2 * msgShareLen <= MaxInt (so that neither
    the rounded-up candidate nor the sums compared with the end of the row
    overflow), [NextAlignedPowerOfTwo] returns a start that is at most
    ((cursor / k) + 1) * k, the beginning of the next row. *)
Theorem NextAlignedPowerOfTwo_within_next_row cursor msgShareLen k :
  0 ≤ cursor → 1 ≤ msgShareLen → is_pow2 k →
  cursor + 2 * msgShareLen ≤ MaxInt →
  start_within_next_row cursor msgShareLen k.
Proof.
  intros Hc Hm [Hk _] Hmsg. unfold start_within_next_row.
  rewrite NextAlignedPowerOfTwo_wrapped_row by lia. cbv zeta.
  pose proof (end_of_row_bounds cursor k Hc Hk) as Hend.
  pose proof (wrap_le ((cursor / k + 1) * k) ltac:(lia)) as Hwrap.
  pose proof (largest_pow2_le_bounds msgShareLen Hm) as Hnl.
  destruct (cursor mod k =? 0); [eexists _, _; split; [done | lia]|].
  destruct (Z.leb_spec (Spec.round_up cursor (Spec.largest_pow2_le msgShareLen)
                        + msgShareLen) (wrap ((cursor / k + 1) * k)));
    [eexists _, _; split; [done | lia]|].
  destruct (Z.leb_spec (Spec.round_up cursor (Spec.largest_pow2_le msgShareLen)
                        + Spec.largest_pow2_le msgShareLen)
              (wrap ((cursor / k + 1) * k)));
    eexists _, _; (split; [done | lia]).
Qed.

Lemma NextAlignedPowerOfTwo_within_next_row_witness :
  (0 ≤ 3 ∧ 1 ≤ 8 ∧ is_pow2 4 ∧ 3 + 2 * 8 ≤ MaxInt)
  ∧ start_within_next_row 3 8 4.
Proof.
  assert (0 ≤ 3 ∧ 1 ≤ 8 ∧ is_pow2 4 ∧ 3 + 2 * 8 ≤ MaxInt)
    as H by (unfold is_pow2, MaxInt; repeat split; (lia || reflexivity)).
  split; [exact H|].
  destruct H as (H1 & H2 & H3 & H4).
  exact (NextAlignedPowerOfTwo_within_next_row 3 8 4 H1 H2 H3 H4).
Defined.

(** C9 as stated fails near [MaxInt]: candidate + msgShareLen wraps around
    to a negative number, the first case of the switch is taken, and the
    start 3 * 2^61 lies beyond the next row start 2^62 + 2. *)
Lemma NextAlignedPowerOfTwo_within_next_row_counterexample :
  NextAlignedPowerOfTwo (2 ^ 62 + 1) (2 ^ 62 - 1) 2 = Ret (3 * 2 ^ 61, true)
  ∧ ((2 ^ 62 + 1) / 2 + 1) * 2 < 3 * 2 ^ 61
  ∧ ¬ start_within_next_row (2 ^ 62 + 1) (2 ^ 62 - 1) 2.
Proof.
  split; [vm_compute; reflexivity|]. split; [vm_compute; reflexivity|].
  intros (s & fits & Hret & Hle).
  vm_compute in Hret. injection Hret as <- <-. vm_compute in Hle. by apply Hle.
Qed.

(** ** The Packer *)

Lemma packer_loop_run k msgShareLens : ∀ cursor (done rest : list Z),
  length rest = length msgShareLens →
  packer_loop k msgShareLens (length done) cursor (done ++ rest)
  = '(final, indexes) ← packer_run k msgShareLens cursor;
    Ret (final, done ++ indexes).
Proof.
  induction msgShareLens as [|msgLen lens IH]; intros cursor done rest Hlen.
  - destruct rest; [|done]. done.
  - destruct rest as [|slot rest]; [done|]. simpl.
    destruct (NextAlignedPowerOfTwo cursor msgLen k) as [[start fits]| |];
      [|done|done].
    bind_steps.
    rewrite insert_app_r_alt, Nat.sub_diag by lia. simpl.
    replace (done ++ uint32 start :: rest) with ((done ++ [uint32 start]) ++ rest)
      by (by rewrite <- app_assoc).
    replace (S (length done)) with (length (done ++ [uint32 start]))
      by (rewrite length_app; simpl; lia).
    rewrite IH by (simpl in Hlen; lia).
    destruct (packer_run k lens (add start msgLen)) as [[final indexes]| |];
      [|done|done].
    bind_steps. by rewrite <- app_assoc.
Qed.

Lemma MsgSharesUsedNIDefaults_run cursor k msgShareLens :
  MsgSharesUsedNIDefaults cursor k msgShareLens
  = '(final, indexes) ← packer_run k msgShareLens cursor;
    Ret (sub final cursor, indexes).
Proof.
  unfold MsgSharesUsedNIDefaults.
  pose proof (packer_loop_run k msgShareLens cursor []
                (replicate (length msgShareLens) 0)) as Hrun.
  simpl in Hrun. rewrite Hrun by apply length_replicate.
  by destruct (packer_run k msgShareLens cursor) as [[final indexes]| |].
Qed.

Lemma uint32_small z : 0 ≤ z ≤ MaxUint32 → uint32 z = z.
Proof. unfold uint32, MaxUint32. intros H. apply Z.mod_small. lia. Qed.

Lemma padded_total_nonneg k msgShareLens :
  0 ≤ k → Forall (λ msgLen, 1 ≤ msgLen) msgShareLens →
  0 ≤ padded_total k msgShareLens.
Proof.
  intros Hk Hpos. induction Hpos as [|m lens Hm _ IH]; simpl; lia.
Qed.

Lemma packer_run_chain k msgShareLens : ∀ cursor,
  0 ≤ cursor → 1 ≤ k → Forall (λ msgLen, 1 ≤ msgLen) msgShareLens →
  cursor + padded_total k msgShareLens ≤ MaxUint32 →
  ∃ final indexes,
    packer_run k msgShareLens cursor = Ret (final, indexes)
    ∧ cursor ≤ final ≤ cursor + padded_total k msgShareLens
    ∧ starts_chain cursor msgShareLens indexes.
Proof.
  induction msgShareLens as [|msgLen lens IH]; intros cursor Hc Hk Hpos Hbound.
  - exists cursor, []. simpl. repeat split; lia.
  - inversion Hpos as [|? ? Hm Hpos']; subst. simpl in Hbound |- *.
    pose proof (padded_total_nonneg k lens ltac:(lia) Hpos') as Hpad.
    assert (MaxUint32 ≤ MaxInt) as Hmax by (by vm_compute).
    pose proof (end_of_row_bounds cursor k Hc ltac:(lia)) as Hend.
    rewrite NextAlignedPowerOfTwo_refines by lia.
    pose proof (nextAlignedStart_bounds cursor msgLen k Hc Hm Hk) as Hb.
    destruct (Spec.nextAlignedStart cursor msgLen k) as [start fits].
    cbn in Hb. bind_steps.
    rewrite add_small by (unfold is_int, MinInt, MaxInt, MaxUint32 in *; lia).
    destruct (IH (start + msgLen)) as (final & indexes & -> & Hfinal & Hchain);
      [lia | done | done | lia |].
    bind_steps. exists final, (uint32 start :: indexes).
    rewrite uint32_small by lia.
    split; [done|]. split; [lia|]. simpl. split; [lia | done].
Qed.

Lemma starts_chain_length cursor msgShareLens indexes :
  starts_chain cursor msgShareLens indexes →
  length indexes = length msgShareLens.
Proof.
  revert cursor indexes.
  induction msgShareLens as [|m lens IH]; intros cursor [|s idx]; simpl; try done.
  intros [_ H]. f_equal. by eapply IH.
Qed.

Lemma starts_chain_step cursor msgShareLens indexes :
  starts_chain cursor msgShareLens indexes →
  ∀ i s s' msgLen,
    indexes !! i = Some s → indexes !! S i = Some s' →
    msgShareLens !! i = Some msgLen → s + msgLen ≤ s'.
Proof.
  revert cursor indexes.
  induction msgShareLens as [|m lens IH]; intros cursor [|s0 idx]; simpl; try done.
  intros [Hc Hchain] [|i] s s' msgLen; simpl.
  - intros [= ->] Hs' [= ->].
    destruct lens as [|m' lens], idx as [|s1 idx]; simpl in *; try done.
    injection Hs' as ->. lia.
  - by eapply IH.
Qed.

(** C7 (amended): for every cursor >= 0, power-of-two k and list of
    positive message share-lengths with
    cursor + sum_i (k + 2 * msgShareLens[i]) <= MaxUint32 (so that no index
    is truncated by the [uint32] conversion and no [int] overflows),
    [MsgSharesUsedNIDefaults] returns one index per message with
    indexes[0] >= cursor and indexes[i+1] >= indexes[i] + msgShareLens[i]
    for every i; hence the indexes are non-decreasing. *)
Theorem MsgSharesUsedNIDefaults_monotone cursor k msgShareLens :
  0 ≤ cursor → is_pow2 k → Forall (λ msgLen, 1 ≤ msgLen) msgShareLens →
  cursor + padded_total k msgShareLens ≤ MaxUint32 →
  packer_monotone cursor k msgShareLens.
Proof.
  intros Hc [Hk _] Hpos Hbound. unfold packer_monotone.
  rewrite MsgSharesUsedNIDefaults_run.
  destruct (packer_run_chain k msgShareLens cursor)
    as (final & indexes & -> & Hfinal & Hchain); [done | lia | done | done |].
  bind_steps. exists (sub final cursor), indexes.
  pose proof (starts_chain_length _ _ _ Hchain) as Hlen.
  split; [done|]. split; [done|]. split; [|split].
  - intros s Hs. destruct msgShareLens, indexes; simpl in *; try done.
    injection Hs as ->. tauto.
  - by eapply starts_chain_step.
  - intros i s s' Hs Hs'.
    destruct (lookup_lt_is_Some_2 msgShareLens i) as [msgLen HmsgLen].
    { rewrite <- Hlen. by eapply lookup_lt_Some. }
    pose proof (starts_chain_step _ _ _ Hchain i s s' msgLen Hs Hs' HmsgLen).
    assert (1 ≤ msgLen); [|lia].
    rewrite Forall_lookup in Hpos. by eapply Hpos.
Qed.

Lemma MsgSharesUsedNIDefaults_monotone_witness :
  (0 ≤ 1 ∧ is_pow2 4 ∧ Forall (λ msgLen, 1 ≤ msgLen) [2; 3; 1]
   ∧ 1 + padded_total 4 [2; 3; 1] ≤ MaxUint32)
  ∧ packer_monotone 1 4 [2; 3; 1].
Proof.
  assert (0 ≤ 1 ∧ is_pow2 4 ∧ Forall (λ msgLen, 1 ≤ msgLen) [2; 3; 1]
          ∧ 1 + padded_total 4 [2; 3; 1] ≤ MaxUint32) as H.
  { split; [lia|]. split; [split; [lia | reflexivity]|].
    split; [repeat constructor; lia | by vm_compute]. }
  split; [exact H|].
  destruct H as (H1 & H2 & H3 & H4).
  exact (MsgSharesUsedNIDefaults_monotone 1 4 [2; 3; 1] H1 H2 H3 H4).
Defined.

(** C7 as stated fails once a start reaches 2^32: the index is the start
    truncated to 32 bits.  From cursor 2^32 - 1 with k = 1 and two messages
    of one share the indexes are [2^32 - 1; 0]. *)
Lemma MsgSharesUsedNIDefaults_monotone_counterexample :
  MsgSharesUsedNIDefaults (2 ^ 32 - 1) 1 [1; 1] = Ret (2, [2 ^ 32 - 1; 0])
  ∧ ¬ packer_monotone (2 ^ 32 - 1) 1 [1; 1].
Proof.
  split; [vm_compute; reflexivity|].
  intros (total & indexes & Hret & _ & _ & _ & Hmono).
  vm_compute in Hret. injection Hret as <- <-.
  specialize (Hmono 0%nat _ _ eq_refl eq_refl). by vm_compute in Hmono.
Qed.

(** ** When the Aligner returns *)

Lemma roundUpBy_returns cursor v : v ≠ 0 → ∃ r, roundUpBy cursor v = Ret r.
Proof.
  intros Hv. unfold roundUpBy, rem, div.
  destruct (Z.eqb_spec v 0); [done|].
  destruct (cursor =? 0); [by eauto|]. bind_steps.
  destruct (Z.rem cursor v =? 0); bind_steps; eauto.
Qed.

(** The Aligner returns for every cursor when the row length is not zero and
    the share-length lies between 1 and 2^62. *)
Lemma NextAlignedPowerOfTwo_returns cursor msgLen k :
  k ≠ 0 → 1 ≤ msgLen ≤ 2 ^ 62 →
  ∃ start fits, NextAlignedPowerOfTwo cursor msgLen k = Ret (start, fits).
Proof.
  intros Hk Hm. unfold NextAlignedPowerOfTwo.
  destruct (nextLowestPowerOfTwo_spec msgLen Hm) as (e & He & -> & _).
  assert (0 < 2 ^ e) as Hpos by (apply Z.pow_pos_nonneg; lia).
  destruct (roundUpBy_returns cursor (2 ^ e)) as [r Hr]; [lia|].
  unfold rem, div. destruct (Z.eqb_spec k 0); [done|].
  destruct (cursor =? 0); bind_steps; [by eauto|].
  destruct (Z.rem cursor k =? 0); bind_steps; [by eauto|].
  rewrite Hr. bind_steps.
  repeat (destruct (_ <=? _)); eauto.
Qed.

(** ** The Splitter *)

Section SplitterProperties.

Context `{codec : ShareCodec}.

(** A run of the loop that ends without error has appended the Packer's
    indexes to the list it started with. *)
Lemma splitter_loop_indexes k msgs : ∀ cursor splitter indexes rawShares out,
  splitter_loop k msgs cursor splitter indexes = Ret (rawShares, out, None) →
  ∃ final packed,
    packer_run k (share_lens msgs) cursor = Ret (final, packed)
    ∧ out = Some (indexes ++ packed).
Proof.
  induction msgs as [|msg rest IH]; intros cursor splitter indexes rawShares out; simpl.
  - intros [= _ <-]. exists cursor, []. by rewrite app_nil_r.
  - destruct (div cursor k) as [row| |]; [|done|done]. bind_steps.
    destruct (row >? k); [done|].
    destruct (NextAlignedPowerOfTwo cursor (MsgSharesUsed (len_Data msg)) k)
      as [[nextCursor fits]| |]; [|done|done].
    bind_steps. intros Hloop.
    destruct (IH _ _ _ _ _ Hloop) as (final & packed & -> & ->).
    bind_steps. exists final, (uint32 nextCursor :: packed).
    by rewrite <- app_assoc.
Qed.

Lemma splitter_loop_error_nil k msgs : ∀ cursor splitter indexes rawShares out e,
  splitter_loop k msgs cursor splitter indexes = Ret (rawShares, out, Some e) →
  rawShares = None ∧ out = None.
Proof.
  induction msgs as [|msg rest IH]; intros cursor splitter indexes rawShares out e;
    simpl; [done|].
  destruct (div cursor k) as [row| |]; [|done|done]. bind_steps.
  destruct (row >? k); [by intros [= <- <- _]|].
  destruct (NextAlignedPowerOfTwo cursor (MsgSharesUsed (len_Data msg)) k)
    as [[nextCursor fits]| |]; [|done|done].
  bind_steps. apply IH.
Qed.

Lemma splitter_loop_error_overflow k msgs : ∀ cursor splitter indexes rawShares out e,
  splitter_loop k msgs cursor splitter indexes = Ret (rawShares, out, Some e) →
  row_overflow cursor k msgs.
Proof.
  induction msgs as [|msg rest IH]; intros cursor splitter indexes rawShares out e;
    simpl; [done|].
  destruct (div cursor k) as [row| |] eqn:Hrow; [|done|done]. bind_steps.
  destruct (Z.gtb_spec row k) as [Hgt|Hle].
  { intros _. exists cursor, msg, row. split; [constructor | split; [done | lia]]. }
  destruct (NextAlignedPowerOfTwo cursor (MsgSharesUsed (len_Data msg)) k)
    as [[nextCursor fits]| |] eqn:Hnext; [|done|done].
  bind_steps. intros Hloop.
  destruct (IH _ _ _ _ _ _ Hloop) as (cursor' & msg' & row' & Hatp & Hdiv & Hgt).
  exists cursor', msg', row'. split; [|done]. by eapply atp_tail.
Qed.

Lemma about_to_process_error k cursor msgs cursor' msg' row :
  about_to_process k cursor msgs cursor' msg' →
  div cursor' k = Ret row → k < row →
  ∀ splitter indexes,
    splitter_loop k msgs cursor splitter indexes
    = Ret (None, None, Some square_too_small).
Proof.
  intros Hatp Hdiv Hgt.
  induction Hatp as [cursor msg rest
                    |cursor msg rest row0 nextCursor fits cursor' msg' Hrow0 Hle Hnext _ IH];
    intros splitter indexes; simpl.
  - rewrite Hdiv. bind_steps. destruct (Z.gtb_spec row k); [done | lia].
  - rewrite Hrow0. bind_steps. destruct (Z.gtb_spec row0 k); [lia|].
    rewrite Hnext. bind_steps. by apply IH.
Qed.

(** C2 (amended): whenever [SplitMessagesUsingNIDefaults cursor k msgs]
    returns no error, the Packer run on the share counts
    lens[i] = MsgSharesUsed(len(msgs[i].Data)) returns as well, and the
    Splitter's index list is uint32(cursor) followed by the Packer's index
    list: the first entry is the input cursor truncated to 32 bits, which is
    the input cursor itself whenever 0 <= cursor <= MaxUint32. *)
Theorem SplitMessagesUsingNIDefaults_agrees_with_packer
    cursor k msgs rawShares indexes :
  SplitMessagesUsingNIDefaults cursor k msgs = Ret (rawShares, indexes, None) →
  ∃ total packed,
    MsgSharesUsedNIDefaults cursor k (share_lens msgs) = Ret (total, packed)
    ∧ indexes = Some (uint32 cursor :: packed)
    ∧ (0 ≤ cursor ≤ MaxUint32 → indexes = Some (cursor :: packed)).
Proof.
  unfold SplitMessagesUsingNIDefaults. intros Hsplit.
  destruct (splitter_loop_indexes _ _ _ _ _ _ _ Hsplit) as (final & packed & Hrun & ->).
  rewrite MsgSharesUsedNIDefaults_run, Hrun. bind_steps.
  exists (sub final cursor), packed. split; [done|]. split; [done|].
  intros Hc. simpl. by rewrite uint32_small.
Qed.

(** The Splitter returns (shares or the error) whenever the square size is
    not zero and every message takes between 1 and 2^62 shares. *)
Lemma splitter_loop_returns k msgs :
  k ≠ 0 →
  Forall (λ msg, 1 ≤ MsgSharesUsed (len_Data msg) ≤ 2 ^ 62) msgs →
  ∀ cursor splitter indexes,
    ∃ result, splitter_loop k msgs cursor splitter indexes = Ret result.
Proof.
  intros Hk Hsizes. induction Hsizes as [|msg rest Hmsg _ IH];
    intros cursor splitter indexes; simpl; [by eauto|].
  unfold div at 1. destruct (Z.eqb_spec k 0); [done|]. bind_steps.
  destruct (_ >? _); [by eauto|].
  destruct (NextAlignedPowerOfTwo_returns cursor _ k Hk Hmsg) as (next & fits & ->).
  bind_steps. apply IH.
Qed.

(** C8: [SplitMessagesUsingNIDefaults] returns an error exactly when some
    message is about to be processed with a running cursor such that
    cursor / k > k; with an error both the raw shares and the indexes are
    nil; and when no message triggers the check, what is returned carries a
    nil error, and the call does return, with non-nil indexes and a nil
    error, as soon as k is not 0 and every message takes between 1 and 2^62
    shares (otherwise the Aligner may panic or not terminate). *)
Theorem SplitMessagesUsingNIDefaults_error cursor k msgs :
  ((∃ rawShares indexes e,
      SplitMessagesUsingNIDefaults cursor k msgs = Ret (rawShares, indexes, Some e))
   ↔ row_overflow cursor k msgs)
  ∧ (∀ rawShares indexes e,
       SplitMessagesUsingNIDefaults cursor k msgs = Ret (rawShares, indexes, Some e) →
       rawShares = None ∧ indexes = None)
  ∧ (¬ row_overflow cursor k msgs →
     ∀ rawShares indexes e,
       SplitMessagesUsingNIDefaults cursor k msgs = Ret (rawShares, indexes, e) →
       e = None)
  ∧ (k ≠ 0 →
     Forall (λ msg, 1 ≤ MsgSharesUsed (len_Data msg) ≤ 2 ^ 62) msgs →
     ¬ row_overflow cursor k msgs →
     ∃ rawShares indexes,
       SplitMessagesUsingNIDefaults cursor k msgs
       = Ret (rawShares, Some indexes, None)).
Proof.
  unfold SplitMessagesUsingNIDefaults. split; [split|split; [|split]].
  - intros (rawShares & indexes & e & Hsplit).
    by eapply splitter_loop_error_overflow.
  - intros (cursor' & msg' & row & Hatp & Hdiv & Hgt).
    exists None, None, square_too_small. by eapply about_to_process_error.
  - intros rawShares indexes e. apply splitter_loop_error_nil.
  - intros Hno rawShares indexes [e|] Hsplit; [|done].
    destruct Hno. by eapply splitter_loop_error_overflow.
  - intros Hk Hsizes Hno.
    destruct (splitter_loop_returns k msgs Hk Hsizes cursor
                NewMessageShareSplitter [uint32 cursor])
      as [[[rawShares indexes] [e|]] Hsplit].
    { destruct Hno. by eapply splitter_loop_error_overflow. }
    destruct (splitter_loop_indexes _ _ _ _ _ _ _ Hsplit)
      as (final & packed & _ & ->).
    by eauto.
Qed.

End SplitterProperties.

Lemma SplitMessagesUsingNIDefaults_error_witness :
  (4 ≠ 0
   ∧ Forall (λ msg, 1 ≤ MsgSharesUsed (ShareCodec := example_codec) (len_Data msg)
                    ≤ 2 ^ 62) example_msgs
   ∧ ¬ row_overflow (codec := example_codec) 2 4 example_msgs)
  ∧ ∃ rawShares indexes,
      SplitMessagesUsingNIDefaults (codec := example_codec) 2 4 example_msgs
      = Ret (rawShares, Some indexes, None).
Proof.
  destruct (SplitMessagesUsingNIDefaults_error (codec := example_codec)
              2 4 example_msgs) as (Hiff & _ & _ & Hreturns).
  assert (4 ≠ 0) as Hk by lia.
  assert (Forall (λ msg, 1 ≤ MsgSharesUsed (ShareCodec := example_codec) (len_Data msg)
                         ≤ 2 ^ 62) example_msgs) as Hsizes
    by (repeat constructor; by vm_compute).
  assert (¬ row_overflow (codec := example_codec) 2 4 example_msgs) as Hno.
  { intros Hover. apply Hiff in Hover.
    destruct Hover as (rawShares & indexes & e & Hsplit).
    vm_compute in Hsplit. discriminate. }
  split; [by repeat split|]. by apply Hreturns.
Defined.

Example SplitMessagesUsingNIDefaults_example :
  SplitMessagesUsingNIDefaults (codec := example_codec) 1 4 example_msgs
  = Ret (Some [[x0a; x0b; x0c]; [x10; x11; x12; x13]; [x14]], Some [1; 1; 2], None).
Proof. reflexivity. Qed.

Example SplitMessagesUsingNIDefaults_padding_example :
  SplitMessagesUsingNIDefaults (codec := example_codec) 2 4 example_msgs
  = Ret (Some [[x0a; x0b; x0c]; []; [x10; x11; x12; x13]; [x14]],
         Some [2; 2; 4], None).
Proof. reflexivity. Qed.

Example SplitMessagesUsingNIDefaults_error_example :
  SplitMessagesUsingNIDefaults (codec := example_codec) 21 4 example_msgs
  = Ret (None, None, Some square_too_small).
Proof. reflexivity. Qed.

Example MsgSharesUsedNIDefaults_example :
  MsgSharesUsedNIDefaults 0 4 [1; 1] = Ret (2, [0; 1]).
Proof. reflexivity. Qed.

Lemma SplitMessagesUsingNIDefaults_agrees_with_packer_witness :
  ∃ rawShares,
    SplitMessagesUsingNIDefaults (codec := example_codec) 1 4 example_msgs
    = Ret (rawShares, Some [1; 1; 2], None)
    ∧ ∃ total packed,
        MsgSharesUsedNIDefaults 1 4 (share_lens (codec := example_codec) example_msgs)
        = Ret (total, packed)
        ∧ Some [1; 1; 2] = Some (uint32 1 :: packed)
        ∧ (0 ≤ 1 ≤ MaxUint32 → Some [1; 1; 2] = Some (1 :: packed)).
Proof.
  eexists.
  assert (SplitMessagesUsingNIDefaults (codec := example_codec) 1 4 example_msgs
          = Ret (_, Some [1; 1; 2], None)) as H by reflexivity.
  split; [exact H|].
  exact (SplitMessagesUsingNIDefaults_agrees_with_packer
           (codec := example_codec) 1 4 example_msgs _ _ H).
Defined.

(** C2 as stated fails for a cursor that does not fit 32 bits: the entry in
    front is uint32(cursor), not the cursor.  With cursor = 2^32, k = 1 and
    no message the Splitter returns the indexes [0]. *)
Lemma SplitMessagesUsingNIDefaults_agrees_with_packer_counterexample :
  SplitMessagesUsingNIDefaults (codec := example_codec) (2 ^ 32) 1 []
  = Ret (Some [], Some [0], None)
  ∧ MsgSharesUsedNIDefaults (2 ^ 32) 1 [] = Ret (0, [])
  ∧ ¬ splitter_agrees_with_packer (codec := example_codec) (2 ^ 32) 1 [].
Proof.
  split; [reflexivity|]. split; [reflexivity|].
  intros H. destruct (H _ _ eq_refl) as (total & packed & _ & Hidx).
  by vm_compute in Hidx.
Qed.

(** ** The fits-in-square predicate *)

(** C5: at the capacity boundary of a 4 x 4 square, [FitsInSquare 0 4]
    returns true with no message, true with one message of 16 shares, and
    false with one message of 17 shares. *)
Theorem FitsInSquare_capacity_boundary :
  FitsInSquare 0 4 [] = Ret true
  ∧ FitsInSquare 0 4 [16] = Ret true
  ∧ FitsInSquare 0 4 [17] = Ret false.
Proof. repeat split; vm_compute; reflexivity. Qed.

Lemma div_int a b : is_int a → 0 < b → div a b = Ret (Z.quot a b).
Proof.
  intros Ha Hb. unfold div. destruct (Z.eqb_spec b 0); [lia|].
  f_equal. apply wrap_small. unfold is_int, MinInt, MaxInt in *.
  destruct (Z.le_gt_cases 0 a) as [Hpos|Hneg].
  - rewrite Z.quot_div_nonneg by lia.
    assert (0 ≤ a / b) by (apply Z.div_pos; lia).
    assert (a / b ≤ a) by (apply Z.div_le_upper_bound; nia). lia.
  - replace a with (- - a) by lia. rewrite Z.quot_opp_l by lia.
    rewrite Z.quot_div_nonneg by lia.
    assert (0 ≤ - a / b) by (apply Z.div_pos; lia).
    assert (- a / b ≤ - a) by (apply Z.div_le_upper_bound; nia). lia.
Qed.

(** C10: for every power-of-two k and every cursor with cursor / k <= k
    (Go's integer division), [FitsInSquare cursor k] with no message lengths
    returns true; in particular at the cursor k^2 + k - 1, which is not an
    index of the k^2-share square (and lies strictly beyond k^2 as soon as
    k >= 2). *)
Theorem FitsInSquare_no_messages k :
  is_pow2 k → k ≤ MaxInt →
  (∀ cursor, is_int cursor → Z.quot cursor k ≤ k →
             FitsInSquare cursor k [] = Ret true)
  ∧ (k * k + k - 1 ≤ MaxInt →
     FitsInSquare (k * k + k - 1) k [] = Ret true
     ∧ k * k ≤ k * k + k - 1
     ∧ (2 ≤ k → k * k < k * k + k - 1)).
Proof.
  intros [Hk _] Hmax.
  assert (∀ cursor, is_int cursor → Z.quot cursor k ≤ k →
                    FitsInSquare cursor k [] = Ret true) as Hgen.
  { intros cursor Hc Hrow. unfold FitsInSquare. simpl.
    rewrite div_int by done. bind_steps.
    by destruct (Z.leb_spec (Z.quot cursor k) k); [|lia]. }
  split; [done|]. intros Hsq. split; [|lia].
  apply Hgen; [unfold is_int, MinInt, MaxInt in *; nia|].
  rewrite Z.quot_div_nonneg by nia.
  replace (k * k + k - 1) with (k - 1 + k * k) by lia.
  rewrite Z.div_add by lia. rewrite Z.div_small by lia. lia.
Qed.

Lemma FitsInSquare_no_messages_witness :
  (is_pow2 4 ∧ 4 ≤ MaxInt)
  ∧ (∀ cursor, is_int cursor → Z.quot cursor 4 ≤ 4 →
               FitsInSquare cursor 4 [] = Ret true)
  ∧ (4 * 4 + 4 - 1 ≤ MaxInt →
     FitsInSquare (4 * 4 + 4 - 1) 4 [] = Ret true
     ∧ 4 * 4 ≤ 4 * 4 + 4 - 1
     ∧ (2 ≤ 4 → 4 * 4 < 4 * 4 + 4 - 1)).
Proof.
  assert (is_pow2 4 ∧ 4 ≤ MaxInt) as H
    by (unfold is_pow2, MaxInt; repeat split; (lia || reflexivity)).
  split; [exact H|].
  destruct H as (H1 & H2).
  exact (FitsInSquare_no_messages 4 H1 H2).
Defined.

Example FitsInSquare_beyond_square : FitsInSquare 19 4 [] = Ret true.
Proof. reflexivity. Qed.

(** ** Totality *)

(** C4 (the code falls short of it): a zero share-length is a non-negative
    argument, yet away from a row start [nextLowestPowerOfTwo 0] is 0 and
    [roundUpBy] divides by it: the Aligner, the Packer and the predicate
    panic.  Above 2^62 the doubling loop of [nextPowerOfTwo] overflows and
    never exits, whatever the fuel. *)
Theorem zero_share_length_panics :
  nextLowestPowerOfTwo 0 = Ret 0
  ∧ roundUpBy 1 0 = Panic
  ∧ NextAlignedPowerOfTwo 1 0 4 = Panic
  ∧ MsgSharesUsedNIDefaults 1 4 [0] = Panic
  ∧ FitsInSquare 1 4 [0] = Panic
  ∧ (∀ fuel, nextPowerOfTwo_loop fuel 1 (2 ^ 62 + 1) = OutOfFuel).
Proof.
  do 5 (split; [vm_compute; reflexivity|]).
  intros fuel. change 1 with (2 ^ 0) at 1.
  apply nextPowerOfTwo_loop_diverges; lia.
Qed.

(** * Further properties of the code *)

(** ** Helpers *)

(** X1: for v <= 2^62, [nextPowerOfTwo v] returns the least power of two
    that is at least v (1 for every v <= 1). *)
Theorem nextPowerOfTwo_least v :
  v ≤ 2 ^ 62 →
  ∃ p, nextPowerOfTwo v = Ret p ∧ is_pow2 p ∧ v ≤ p
       ∧ ∀ q, is_pow2 q → v ≤ q → p ≤ q.
Proof.
  intros Hv. destruct (nextPowerOfTwo_spec v Hv) as (j & Hj & Hret & Hub & Hlb).
  exists (2 ^ j). split; [done|]. split; [apply is_pow2_exp; exists j; lia|].
  split; [done|]. intros q [e [He ->]]%is_pow2_exp Hq.
  destruct Hlb as [->|Hlb].
  - change (2 ^ 0) with 1. assert (0 < 2 ^ e) by (apply Z.pow_pos_nonneg; lia). lia.
  - apply Z.pow_le_mono_r; [lia|].
    assert (j - 1 < e); [|lia]. apply (Z.pow_lt_mono_r_iff 2); lia.
Qed.

Lemma nextPowerOfTwo_least_witness :
  5 ≤ 2 ^ 62
  ∧ ∃ p, nextPowerOfTwo 5 = Ret p ∧ is_pow2 p ∧ 5 ≤ p
         ∧ ∀ q, is_pow2 q → 5 ≤ q → p ≤ q.
Proof. split; [by vm_compute | apply (nextPowerOfTwo_least 5); by vm_compute]. Defined.

(** X2: [nextPowerOfTwo v] returns exactly when v <= 2^62; above 2^62 the
    shift overflows before k reaches v and the loop never exits, whatever
    the number of iterations granted. *)
Theorem nextPowerOfTwo_returns_iff v :
  ((∃ p, nextPowerOfTwo v = Ret p) ↔ v ≤ 2 ^ 62)
  ∧ (2 ^ 62 < v → ∀ fuel, nextPowerOfTwo_loop fuel 1 v = OutOfFuel).
Proof.
  split; [split|].
  - intros [p Hp]. destruct (Z.le_gt_cases v (2 ^ 62)) as [|Hv]; [done|].
    by rewrite nextPowerOfTwo_diverges in Hp.
  - intros Hv. destruct (nextPowerOfTwo_spec v Hv) as (j & _ & Hret & _). eauto.
  - intros Hv fuel. change 1 with (2 ^ 0) at 1.
    apply nextPowerOfTwo_loop_diverges; lia.
Qed.

(** X3: a power of two up to 2^62 is a fixed point of both [nextPowerOfTwo]
    and [nextLowestPowerOfTwo]. *)
Theorem pow2_fixed_point p :
  is_pow2 p → p ≤ 2 ^ 62 →
  nextPowerOfTwo p = Ret p ∧ nextLowestPowerOfTwo p = Ret p.
Proof.
  intros Hp Hle.
  assert (nextPowerOfTwo p = Ret p) as Hnext.
  { destruct (nextPowerOfTwo_spec p Hle) as (j & Hj & Hret & Hub & Hlb).
    rewrite Hret. f_equal. apply Z.le_antisymm; [|done].
    destruct Hp as [Hpos Hlog]. destruct Hlb as [->|Hlb].
    - change (2 ^ 0) with 1. lia.
    - rewrite <- Hlog in Hlb |- *. apply Z.pow_le_mono_r; [lia|].
      assert (j - 1 < Z.log2 p); [|lia].
      apply (Z.pow_lt_mono_r_iff 2); [lia | apply Z.log2_nonneg | done]. }
  split; [done|]. unfold nextLowestPowerOfTwo. rewrite Hnext. bind_steps.
  by rewrite Z.eqb_refl.
Qed.

Lemma pow2_fixed_point_witness :
  (is_pow2 16 ∧ 16 ≤ 2 ^ 62)
  ∧ nextPowerOfTwo 16 = Ret 16 ∧ nextLowestPowerOfTwo 16 = Ret 16.
Proof.
  split; [split; [split; [lia | reflexivity] | by vm_compute]|].
  apply (pow2_fixed_point 16); [split; [lia | reflexivity] | by vm_compute].
Defined.

(** X4: for 1 <= v <= 2^62, [nextLowestPowerOfTwo v] returns the greatest
    power of two that is at most v; v is less than twice that power. *)
Theorem nextLowestPowerOfTwo_greatest v :
  1 ≤ v ≤ 2 ^ 62 →
  ∃ p, nextLowestPowerOfTwo v = Ret p ∧ is_pow2 p ∧ p ≤ v < 2 * p
       ∧ ∀ q, is_pow2 q → q ≤ v → q ≤ p.
Proof.
  intros Hv. rewrite nextLowestPowerOfTwo_largest by done.
  destruct (largest_pow2_le_spec v) as (Hpow & Hle & Hmax); [lia|].
  exists (Spec.largest_pow2_le v). split; [done|]. split; [done|].
  split; [|done]. split; [done|].
  unfold Spec.largest_pow2_le. destruct (Z.log2_spec v) as [_ Hhi]; [lia|].
  replace (Z.succ (Z.log2 v)) with (1 + Z.log2 v) in Hhi by lia.
  rewrite Z.pow_add_r in Hhi; [lia | lia | apply Z.log2_nonneg].
Qed.

Lemma nextLowestPowerOfTwo_greatest_witness :
  1 ≤ 11 ≤ 2 ^ 62
  ∧ ∃ p, nextLowestPowerOfTwo 11 = Ret p ∧ is_pow2 p ∧ p ≤ 11 < 2 * p
         ∧ ∀ q, is_pow2 q → q ≤ 11 → q ≤ p.
Proof.
  split; [split; by vm_compute|].
  apply (nextLowestPowerOfTwo_greatest 11); split; by vm_compute.
Defined.

Lemma nextLowestPowerOfTwo_le_0 v : v ≤ 0 → nextLowestPowerOfTwo v = Ret 0.
Proof.
  intros Hv.
  assert (nextPowerOfTwo v = Ret 1) as Hnext.
  { destruct (nextPowerOfTwo_spec v) as (j & Hj & Hret & Hub & [->|Hlb]);
      [lia | done |].
    pose proof (Z.pow_nonneg 2 (j - 1)). lia. }
  unfold nextLowestPowerOfTwo. rewrite Hnext. bind_steps.
  destruct (Z.eqb_spec 1 v); [lia|]. reflexivity.
Qed.

(** X5: for every v <= 0, [nextLowestPowerOfTwo v] returns 0, which is not a
    power of two (the loop of [nextPowerOfTwo] does not run, and 1 / 2 is 0). *)
Theorem nextLowestPowerOfTwo_nonpositive v :
  v ≤ 0 → nextLowestPowerOfTwo v = Ret 0 ∧ ¬ is_pow2 0.
Proof.
  intros Hv. split; [by apply nextLowestPowerOfTwo_le_0 | intros [H _]; lia].
Qed.

Lemma nextLowestPowerOfTwo_nonpositive_witness :
  -3 ≤ 0 ∧ nextLowestPowerOfTwo (-3) = Ret 0 ∧ ¬ is_pow2 0.
Proof. split; [lia | apply (nextLowestPowerOfTwo_nonpositive (-3)); lia]. Defined.

(** X6: for 0 <= cursor and 0 < v with cursor + v <= MaxInt, [roundUpBy]
    returns the least multiple of v that is at least cursor; it adds less
    than v. *)
Theorem roundUpBy_least_multiple cursor v :
  0 ≤ cursor → 0 < v → cursor + v ≤ MaxInt →
  ∃ r, roundUpBy cursor v = Ret r ∧ (v | r) ∧ cursor ≤ r < cursor + v
       ∧ ∀ x, (v | x) → cursor ≤ x → r ≤ x.
Proof.
  intros Hc Hv Hmax. exists (Spec.round_up cursor v).
  split; [by apply roundUpBy_spec|].
  destruct (round_up_spec cursor v Hv) as (Hdiv & _ & Hleast).
  split; [done|]. split; [by apply round_up_bounds | done].
Qed.

Lemma roundUpBy_least_multiple_witness :
  (0 ≤ 13 ∧ 0 < 4 ∧ 13 + 4 ≤ MaxInt)
  ∧ ∃ r, roundUpBy 13 4 = Ret r ∧ (4 | r) ∧ 13 ≤ r < 13 + 4
         ∧ ∀ x, (4 | x) → 13 ≤ x → r ≤ x.
Proof.
  split; [repeat split; by vm_compute|].
  apply (roundUpBy_least_multiple 13 4); by vm_compute.
Defined.

Lemma roundUpBy_multiple cursor v :
  v ≠ 0 → (v | cursor) → roundUpBy cursor v = Ret cursor.
Proof.
  intros Hv Hdiv. unfold roundUpBy, rem.
  destruct (cursor =? 0); [done|].
  destruct (Z.eqb_spec v 0); [done|]. bind_steps.
  apply Z.rem_divide in Hdiv; [|done]. by rewrite Hdiv.
Qed.

(** X7: for 0 <= cursor and 0 < v with cursor + v <= MaxInt, [roundUpBy]
    leaves the cursor where it is exactly when the cursor is a multiple of
    v, and rounding a rounded cursor again changes nothing. *)
Theorem roundUpBy_idempotent cursor v :
  0 ≤ cursor → 0 < v → cursor + v ≤ MaxInt →
  (roundUpBy cursor v = Ret cursor ↔ (v | cursor))
  ∧ ∀ r, roundUpBy cursor v = Ret r → roundUpBy r v = Ret r.
Proof.
  intros Hc Hv Hmax.
  destruct (round_up_spec cursor v Hv) as (Hdiv & _ & _).
  rewrite roundUpBy_spec by done. split; [split|].
  - intros [= Heq]. by rewrite Heq in Hdiv.
  - intros Hmult. f_equal. rewrite round_up_cases by done.
    apply Z.mod_divide in Hmult; [|lia]. by rewrite Hmult.
  - intros r [= <-]. apply roundUpBy_multiple; [lia | done].
Qed.

Lemma roundUpBy_idempotent_witness :
  (0 ≤ 13 ∧ 0 < 4 ∧ 13 + 4 ≤ MaxInt)
  ∧ (roundUpBy 13 4 = Ret 13 ↔ (4 | 13))
  ∧ ∀ r, roundUpBy 13 4 = Ret r → roundUpBy r 4 = Ret r.
Proof.
  split; [repeat split; by vm_compute|].
  apply (roundUpBy_idempotent 13 4); by vm_compute.
Defined.

(** X8: [roundUpBy] panics exactly when the cursor is not 0 and v is 0 (the
    guard [cursor == 0] comes before the division), and it always
    terminates. *)
Theorem roundUpBy_panics_iff cursor v :
  (roundUpBy cursor v = Panic ↔ cursor ≠ 0 ∧ v = 0)
  ∧ roundUpBy cursor v ≠ OutOfFuel.
Proof.
  unfold roundUpBy, rem, div.
  destruct (Z.eqb_spec cursor 0) as [->|Hc].
  { split; [split; [done | by intros [? _]] | done]. }
  destruct (Z.eqb_spec v 0) as [->|Hv].
  { split; [done | done]. }
  bind_steps. destruct (Z.rem cursor v =? 0); bind_steps.
  - split; [split; [done | by intros [_ ?]] | done].
  - split; [split; [done | by intros [_ ?]] | done].
Qed.

(** X9: [roundUpBy] is monotone in the cursor: for 0 <= c1 <= c2 and 0 < v
    with c2 + v <= MaxInt, the rounded c1 is at most the rounded c2. *)
Theorem roundUpBy_monotone c1 c2 v r1 r2 :
  0 ≤ c1 ≤ c2 → 0 < v → c2 + v ≤ MaxInt →
  roundUpBy c1 v = Ret r1 → roundUpBy c2 v = Ret r2 → r1 ≤ r2.
Proof.
  intros Hc Hv Hmax. rewrite !roundUpBy_spec by lia. intros [= <-] [= <-].
  destruct (round_up_spec c1 v Hv) as (_ & _ & Hleast).
  destruct (round_up_spec c2 v Hv) as (Hdiv & Hge & _).
  apply Hleast; [done | lia].
Qed.

Lemma roundUpBy_monotone_witness :
  (0 ≤ 5 ≤ 9 ∧ 0 < 4 ∧ 9 + 4 ≤ MaxInt
   ∧ roundUpBy 5 4 = Ret 8 ∧ roundUpBy 9 4 = Ret 12)
  ∧ 8 ≤ 12.
Proof.
  split; [repeat split; by vm_compute|].
  apply (roundUpBy_monotone 5 9 4 8 12); repeat split; by vm_compute.
Defined.

(** ** Aligner *)

(** X10: which calls of [NextAlignedPowerOfTwo] do not return.  The call
    panics exactly when the cursor is not 0 and either k is 0 or the cursor
    is away from a row start with a message length <= 0; it loops forever
    exactly when the cursor is away from a row start (k not 0) and the
    message length exceeds 2^62.  Every other call returns. *)
Theorem NextAlignedPowerOfTwo_outcome cursor msgLen k :
  (NextAlignedPowerOfTwo cursor msgLen k = Panic
   ↔ cursor ≠ 0 ∧ (k = 0 ∨ (Z.rem cursor k ≠ 0 ∧ msgLen ≤ 0)))
  ∧ (NextAlignedPowerOfTwo cursor msgLen k = OutOfFuel
     ↔ cursor ≠ 0 ∧ k ≠ 0 ∧ Z.rem cursor k ≠ 0 ∧ 2 ^ 62 < msgLen).
Proof.
  destruct (Z.eq_dec cursor 0) as [Hc|Hc].
  { subst. split; (split; [done | by intros [? _]]). }
  destruct (Z.eq_dec k 0) as [Hk|Hk].
  { subst. assert (NextAlignedPowerOfTwo cursor msgLen 0 = Panic) as ->.
    { unfold NextAlignedPowerOfTwo. by destruct (Z.eqb_spec cursor 0). }
    split; [split; [by auto | done] | split; [done | by intros (_ & ? & _)]]. }
  destruct (Z.eq_dec (Z.rem cursor k) 0) as [Hr|Hr].
  { assert (NextAlignedPowerOfTwo cursor msgLen k = Ret (cursor, true)) as ->.
    { unfold NextAlignedPowerOfTwo, rem.
      destruct (Z.eqb_spec cursor 0); [done|].
      destruct (Z.eqb_spec k 0); [done|]. bind_steps. by rewrite Hr. }
    split; (split; [done|]).
    - intros [_ [?|[? _]]]; done.
    - intros (_ & _ & ? & _); done. }
  assert (NextAlignedPowerOfTwo cursor msgLen k
          = nextLowest ← nextLowestPowerOfTwo msgLen;
            start ← roundUpBy cursor nextLowest;
            let endOfCurrentRow := mul (add (wrap (Z.quot cursor k)) 1) k in
            if add start msgLen <=? endOfCurrentRow then Ret (start, true)
            else if add start nextLowest <=? endOfCurrentRow
                 then Ret (start, false)
                 else Ret (endOfCurrentRow, false)) as Hunfold.
  { unfold NextAlignedPowerOfTwo, rem, div.
    destruct (Z.eqb_spec cursor 0); [done|].
    destruct (Z.eqb_spec k 0); [done|]. bind_steps.
    destruct (Z.eqb_spec (Z.rem cursor k) 0); [done|].
    by destruct (nextLowestPowerOfTwo msgLen). }
  destruct (Z.le_gt_cases msgLen 0) as [Hm0|Hm0].
  { assert (NextAlignedPowerOfTwo cursor msgLen k = Panic) as ->.
    { rewrite Hunfold.
      rewrite nextLowestPowerOfTwo_le_0 by done. bind_steps.
      unfold roundUpBy. by destruct (Z.eqb_spec cursor 0). }
    split; [split; [by auto | done] | split; [done | lia]]. }
  destruct (Z.le_gt_cases msgLen (2 ^ 62)) as [Hm62|Hm62].
  - destruct (NextAlignedPowerOfTwo_returns cursor msgLen k Hk ltac:(lia))
      as (start & fits & ->).
    split; (split; [done|]); lia.
  - assert (NextAlignedPowerOfTwo cursor msgLen k = OutOfFuel) as ->.
    { rewrite Hunfold. unfold nextLowestPowerOfTwo.
      by rewrite nextPowerOfTwo_diverges. }
    split; [split; [done | lia] | split; [by auto | done]].
Qed.

(** X11: in the range free of overflow the Aligner never moves the cursor
    back and pads with less than one row: for 0 <= cursor, msgLen >= 1 and
    k >= 1 with cursor + k <= MaxInt and cursor + 2 * msgLen <= MaxInt, the
    returned start satisfies cursor <= start < cursor + k. *)
Theorem NextAlignedPowerOfTwo_padding_below_row cursor msgLen k :
  0 ≤ cursor → 1 ≤ msgLen → 1 ≤ k →
  cursor + k ≤ MaxInt → cursor + 2 * msgLen ≤ MaxInt →
  ∃ start fits,
    NextAlignedPowerOfTwo cursor msgLen k = Ret (start, fits)
    ∧ cursor ≤ start < cursor + k.
Proof.
  intros Hc Hm Hk Hrow Hmsg.
  pose proof (end_of_row_bounds cursor k Hc ltac:(lia)) as Hend.
  rewrite NextAlignedPowerOfTwo_refines by lia.
  unfold Spec.nextAlignedStart.
  pose proof (largest_pow2_le_bounds msgLen Hm) as Hnl.
  pose proof (round_up_bounds cursor (Spec.largest_pow2_le msgLen) ltac:(lia)) as Hru.
  pose proof (Z.div_mod cursor k ltac:(lia)) as Hdm.
  pose proof (Z.mod_pos_bound cursor k ltac:(lia)) as Hmod.
  destruct (Z.eqb_spec (cursor mod k) 0); [eexists _, _; split; [done | lia]|].
  destruct (Z.leb_spec (Spec.round_up cursor (Spec.largest_pow2_le msgLen) + msgLen)
              ((cursor / k + 1) * k)); [eexists _, _; split; [done | lia]|].
  destruct (Z.leb_spec (Spec.round_up cursor (Spec.largest_pow2_le msgLen)
                        + Spec.largest_pow2_le msgLen)
              ((cursor / k + 1) * k)); eexists _, _; (split; [done | nia]).
Qed.

Lemma NextAlignedPowerOfTwo_padding_below_row_witness :
  (0 ≤ 5 ∧ 1 ≤ 4 ∧ 1 ≤ 8 ∧ 5 + 8 ≤ MaxInt ∧ 5 + 2 * 4 ≤ MaxInt)
  ∧ ∃ start fits,
      NextAlignedPowerOfTwo 5 4 8 = Ret (start, fits) ∧ 5 ≤ start < 5 + 8.
Proof.
  split; [repeat split; by vm_compute|].
  apply (NextAlignedPowerOfTwo_padding_below_row 5 4 8); by vm_compute.
Defined.

Lemma min_pow2_divide e f :
  0 ≤ e → 0 ≤ f →
  (Z.min (2 ^ e) (2 ^ f) | 2 ^ e) ∧ (Z.min (2 ^ e) (2 ^ f) | 2 ^ f).
Proof.
  intros He Hf. destruct (Z.le_gt_cases e f) as [Hle|Hgt].
  - assert (2 ^ e ≤ 2 ^ f) by (apply Z.pow_le_mono_r; lia).
    rewrite Z.min_l by done. split; [done | apply pow2_divide; lia].
  - assert (2 ^ f ≤ 2 ^ e) by (apply Z.pow_le_mono_r; lia).
    rewrite Z.min_r by done. split; [apply pow2_divide; lia | done].
Qed.

(** X12: every start the Aligner returns, with either boolean, is aligned:
    for a message length >= 1 and a power-of-two k (an [int]), the start is
    a multiple of the smaller of nextLowestPowerOfTwo(msgLen) and k. *)
Theorem NextAlignedPowerOfTwo_start_aligned cursor msgLen k start fits nextLowest :
  1 ≤ msgLen → is_pow2 k → k ≤ MaxInt →
  NextAlignedPowerOfTwo cursor msgLen k = Ret (start, fits) →
  nextLowestPowerOfTwo msgLen = Ret nextLowest →
  (Z.min nextLowest k | start).
Proof.
  intros Hm [f [Hf ->]]%is_pow2_exp Hk Hret Hnl.
  pose proof (nextLowestPowerOfTwo_ret _ _ Hnl) as Hm62.
  destruct (nextLowestPowerOfTwo_spec msgLen ltac:(lia)) as (e & He & Hnl' & Hb).
  rewrite Hnl' in Hnl. injection Hnl as <-.
  destruct (min_pow2_divide e f ltac:(lia) Hf) as [Hmin_nl Hmin_k].
  assert (0 < 2 ^ f) as Hkpos by (apply Z.pow_pos_nonneg; lia).
  assert (f ≤ 64) as Hf64.
  { assert (f < 63); [|lia]. apply (Z.pow_lt_mono_r_iff 2); [lia | lia |].
    unfold MaxInt in Hk. lia. }
  revert Hret. unfold NextAlignedPowerOfTwo.
  destruct (Z.eqb_spec cursor 0) as [->|Hc0].
  { bind_steps. intros [= <- _]. apply Z.divide_0_r. }
  unfold rem at 1. destruct (Z.eqb_spec (2 ^ f) 0); [lia|]. bind_steps.
  destruct (Z.eqb_spec (Z.rem cursor (2 ^ f)) 0) as [Hr|Hr].
  - intros [= <- _]. apply Z.divide_trans with (2 ^ f); [done|].
    apply Z.rem_divide; [lia | done].
  - rewrite Hnl'. unfold div. destruct (Z.eqb_spec (2 ^ f) 0); [lia|]. bind_steps.
    destruct (roundUpBy cursor (2 ^ e)) as [c| |] eqn:Hround; [|done|done].
    bind_steps. apply roundUpBy_divide in Hround; [|lia].
    assert ((2 ^ f | mul (add (wrap (Z.quot cursor (2 ^ f))) 1) (2 ^ f))) as Hrow.
    { unfold mul. apply wrap_divide; [lia|]. apply Z.divide_mul_r, Z.divide_refl. }
    destruct (_ <=? _); [intros [= <- _]; by apply Z.divide_trans with (2 ^ e)|].
    destruct (_ <=? _); intros [= <- _].
    + by apply Z.divide_trans with (2 ^ e).
    + by apply Z.divide_trans with (2 ^ f).
Qed.

Lemma NextAlignedPowerOfTwo_start_aligned_witness :
  (1 ≤ 8 ∧ is_pow2 4 ∧ 4 ≤ MaxInt
   ∧ NextAlignedPowerOfTwo 3 8 4 = Ret (4, false)
   ∧ nextLowestPowerOfTwo 8 = Ret 8)
  ∧ (Z.min 8 4 | 4).
Proof.
  split; [split; [lia|]; split; [split; [lia | reflexivity]|]; repeat split;
          by vm_compute|].
  apply (NextAlignedPowerOfTwo_start_aligned 3 8 4 4 false 8);
    [lia | split; [lia | reflexivity] | by vm_compute | reflexivity | reflexivity].
Defined.

(** X13: what the returned boolean says, in the range free of overflow
    (0 <= cursor, msgLen >= 1, k >= 1, cursor + k <= MaxInt and
    cursor + 2 * msgLen <= MaxInt).  At a row start it is true and the start
    is the cursor, even for a message longer than the row; away from a row
    start it is true exactly when the message, placed at the returned start,
    ends within the cursor's row. *)
Theorem NextAlignedPowerOfTwo_fits_meaning cursor msgLen k start fits :
  0 ≤ cursor → 1 ≤ msgLen → 1 ≤ k →
  cursor + k ≤ MaxInt → cursor + 2 * msgLen ≤ MaxInt →
  NextAlignedPowerOfTwo cursor msgLen k = Ret (start, fits) →
  (cursor mod k = 0 → start = cursor ∧ fits = true)
  ∧ (cursor mod k ≠ 0 →
     (fits = true ↔ start + msgLen ≤ (cursor / k + 1) * k)).
Proof.
  intros Hc Hm Hk Hrow Hmsg.
  pose proof (end_of_row_bounds cursor k Hc ltac:(lia)) as Hend.
  rewrite NextAlignedPowerOfTwo_refines by lia.
  unfold Spec.nextAlignedStart.
  destruct (Z.eqb_spec (cursor mod k) 0) as [Hr|Hr].
  { intros [= <- <-]. split; [done | by intros]. }
  intros Hret. split; [done|]. intros _. revert Hret.
  destruct (Z.leb_spec (Spec.round_up cursor (Spec.largest_pow2_le msgLen) + msgLen)
              ((cursor / k + 1) * k)) as [Hfit|Hfit].
  { by intros [= <- <-]. }
  destruct (_ <=? _); intros [= <- <-]; (split; [done | lia]).
Qed.

Lemma NextAlignedPowerOfTwo_fits_meaning_witness :
  (0 ≤ 5 ∧ 1 ≤ 4 ∧ 1 ≤ 8 ∧ 5 + 8 ≤ MaxInt ∧ 5 + 2 * 4 ≤ MaxInt
   ∧ NextAlignedPowerOfTwo 5 4 8 = Ret (8, false))
  ∧ (5 mod 8 = 0 → 8 = 5 ∧ false = true)
  ∧ (5 mod 8 ≠ 0 → (false = true ↔ 8 + 4 ≤ (5 / 8 + 1) * 8)).
Proof.
  split; [repeat split; by vm_compute|].
  apply (NextAlignedPowerOfTwo_fits_meaning 5 4 8 8 false); by vm_compute.
Defined.

Lemma same_row_div cursor k x :
  0 < k → cursor / k * k ≤ x < (cursor / k + 1) * k → x / k = cursor / k.
Proof.
  intros Hk Hx. symmetry.
  apply (Z.div_unique x k (cursor / k) (x - cursor / k * k)); lia.
Qed.

(** X14: the start the Aligner returns is a place where the Aligner lets the
    message stay: called again at the returned start it returns that start.
    (For 0 <= cursor, msgLen >= 1, k >= 1 and
    cursor + k + 3 * msgLen <= MaxInt.) *)
Theorem NextAlignedPowerOfTwo_idempotent cursor msgLen k start fits :
  0 ≤ cursor → 1 ≤ msgLen → 1 ≤ k →
  cursor + k + 3 * msgLen ≤ MaxInt →
  NextAlignedPowerOfTwo cursor msgLen k = Ret (start, fits) →
  ∃ fits', NextAlignedPowerOfTwo start msgLen k = Ret (start, fits').
Proof.
  intros Hc Hm Hk Hmax.
  pose proof (end_of_row_bounds cursor k Hc ltac:(lia)) as Hend.
  pose proof (largest_pow2_le_bounds msgLen Hm) as Hnl.
  pose proof (round_up_bounds cursor (Spec.largest_pow2_le msgLen) ltac:(lia)) as Hru.
  destruct (round_up_spec cursor (Spec.largest_pow2_le msgLen) ltac:(lia))
    as (Hdiv & _ & _).
  pose proof (Z.div_mod cursor k ltac:(lia)) as Hdm.
  pose proof (Z.mod_pos_bound cursor k ltac:(lia)) as Hmod.
  assert (0 ≤ cursor / k) as Hq by (apply Z.div_pos; lia).
  rewrite NextAlignedPowerOfTwo_refines by lia.
  unfold Spec.nextAlignedStart. cbv zeta.
  set (nl := Spec.largest_pow2_le msgLen) in *.
  set (candidate := Spec.round_up cursor nl) in *.
  set (endOfRow := (cursor / k + 1) * k) in *.
  assert (candidate + nl ≤ endOfRow →
            ∃ fits', NextAlignedPowerOfTwo candidate msgLen k = Ret (candidate, fits'))
    as Hcand.
  { intros Hpart.
    destruct (Z.eq_dec (candidate mod k) 0) as [Hr|Hr].
    { exists true. apply NextAlignedPowerOfTwo_row_start; lia. }
    assert (candidate / k = cursor / k) as Hsame.
    { apply same_row_div; [lia|]. fold endOfRow. lia. }
    rewrite NextAlignedPowerOfTwo_refines; [| lia | lia | lia | | lia].
    2: { rewrite Hsame. fold endOfRow. lia. }
    unfold Spec.nextAlignedStart. cbv zeta. fold nl. rewrite Hsame. fold endOfRow.
    destruct (Z.eqb_spec (candidate mod k) 0); [done|].
    assert (Spec.round_up candidate nl = candidate) as ->.
    { rewrite round_up_cases by lia.
      apply Z.mod_divide in Hdiv; [|lia]. by rewrite Hdiv. }
    destruct (_ <=? _); [by eauto|].
    destruct (Z.leb_spec (candidate + nl) endOfRow); [by eauto | lia]. }
  destruct (Z.eqb_spec (cursor mod k) 0) as [Hr|Hr].
  { intros [= <- <-]. exists true. by apply NextAlignedPowerOfTwo_row_start; [| lia |]. }
  destruct (Z.leb_spec (candidate + msgLen) endOfRow) as [Hfit|Hfit].
  { intros [= <- <-]. apply Hcand. lia. }
  destruct (Z.leb_spec (candidate + nl) endOfRow) as [Hpart|Hpart].
  { intros [= <- <-]. by apply Hcand. }
  intros [= <- <-]. exists true.
  apply NextAlignedPowerOfTwo_row_start; [lia | lia |].
  unfold endOfRow. apply Z.mod_mul. lia.
Qed.

Lemma NextAlignedPowerOfTwo_idempotent_witness :
  (0 ≤ 5 ∧ 1 ≤ 2 ∧ 1 ≤ 8 ∧ 5 + 8 + 3 * 2 ≤ MaxInt
   ∧ NextAlignedPowerOfTwo 5 2 8 = Ret (6, true))
  ∧ ∃ fits', NextAlignedPowerOfTwo 6 2 8 = Ret (6, fits').
Proof.
  split; [repeat split; by vm_compute|].
  apply (NextAlignedPowerOfTwo_idempotent 5 2 8 6 true); by vm_compute.
Defined.

Lemma NextAlignedPowerOfTwo_one cursor k :
  0 ≤ cursor → 1 ≤ k → cursor + k ≤ MaxInt →
  NextAlignedPowerOfTwo cursor 1 k = Ret (cursor, true).
Proof.
  intros Hc Hk Hmax.
  destruct (Z.eq_dec (cursor mod k) 0) as [Hr|Hr].
  { apply NextAlignedPowerOfTwo_row_start; [done | lia | done]. }
  pose proof (end_of_row_bounds cursor k Hc ltac:(lia)) as Hend.
  assert (2 ≤ k).
  { destruct (Z.eq_dec k 1) as [->|]; [|lia]. by rewrite Z.mod_1_r in Hr. }
  rewrite NextAlignedPowerOfTwo_refines by lia.
  unfold Spec.nextAlignedStart.
  destruct (Z.eqb_spec (cursor mod k) 0); [done|].
  change (Spec.largest_pow2_le 1) with 1.
  assert (Spec.round_up cursor 1 = cursor) as ->.
  { rewrite round_up_cases by lia. by rewrite Z.mod_1_r. }
  cbv zeta. destruct (Z.leb_spec (cursor + 1) ((cursor / k + 1) * k)); [done | lia].
Qed.

(** X15: a message of one share is never padded and always fits: for
    0 <= cursor and k >= 1 with cursor + k <= MaxInt,
    [NextAlignedPowerOfTwo cursor 1 k] returns (cursor, true). *)
Theorem NextAlignedPowerOfTwo_single_share cursor k :
  0 ≤ cursor → 1 ≤ k → cursor + k ≤ MaxInt →
  NextAlignedPowerOfTwo cursor 1 k = Ret (cursor, true).
Proof. apply NextAlignedPowerOfTwo_one. Qed.

Lemma NextAlignedPowerOfTwo_single_share_witness :
  (0 ≤ 7 ∧ 1 ≤ 8 ∧ 7 + 8 ≤ MaxInt)
  ∧ NextAlignedPowerOfTwo 7 1 8 = Ret (7, true).
Proof.
  split; [repeat split; by vm_compute|].
  apply (NextAlignedPowerOfTwo_single_share 7 8); by vm_compute.
Defined.

(** ** Packer *)

Lemma packer_run_length k msgShareLens : ∀ cursor final indexes,
  packer_run k msgShareLens cursor = Ret (final, indexes) →
  length indexes = length msgShareLens.
Proof.
  induction msgShareLens as [|msgLen lens IH]; intros cursor final indexes; simpl.
  - by intros [= _ <-].
  - destruct (NextAlignedPowerOfTwo cursor msgLen k) as [[start fits]| |];
      [|done|done].
    bind_steps.
    destruct (packer_run k lens (add start msgLen)) as [[final' indexes']| |] eqn:Hrun;
      [|done|done].
    bind_steps. intros [= _ <-]. simpl. f_equal. by eapply IH.
Qed.

(** X16: whenever [MsgSharesUsedNIDefaults] returns, it returns one index
    per message share-length, whatever the arguments. *)
Theorem MsgSharesUsedNIDefaults_one_index_per_message
    cursor k msgShareLens total indexes :
  MsgSharesUsedNIDefaults cursor k msgShareLens = Ret (total, indexes) →
  length indexes = length msgShareLens.
Proof.
  rewrite MsgSharesUsedNIDefaults_run.
  destruct (packer_run k msgShareLens cursor) as [[final indexes']| |] eqn:Hrun;
    [|done|done].
  bind_steps. intros [= _ <-]. by eapply packer_run_length.
Qed.

Lemma MsgSharesUsedNIDefaults_one_index_per_message_witness :
  MsgSharesUsedNIDefaults 1 4 [2; 3; 1] = Ret (7, [2; 4; 7])
  ∧ length [2; 4; 7] = length [2; 3; 1].
Proof.
  split; [reflexivity|].
  apply (MsgSharesUsedNIDefaults_one_index_per_message 1 4 [2; 3; 1] 7 [2; 4; 7]).
  reflexivity.
Defined.

Lemma wrap_add_wrap_r a b : wrap (a + wrap b) = wrap (a + b).
Proof.
  unfold wrap. f_equal.
  replace (a + ((b + 2 ^ 63) mod 2 ^ 64 - 2 ^ 63) + 2 ^ 63)
    with (a + (b + 2 ^ 63) mod 2 ^ 64) by lia.
  rewrite Zplus_mod_idemp_r. f_equal. lia.
Qed.

Lemma wrap_add_wrap_l a b : wrap (wrap a + b) = wrap (a + b).
Proof. by rewrite Z.add_comm, wrap_add_wrap_r, Z.add_comm. Qed.

Lemma packer_run_app k l1 : ∀ l2 cursor,
  packer_run k (l1 ++ l2) cursor
  = '(final1, indexes1) ← packer_run k l1 cursor;
    '(final2, indexes2) ← packer_run k l2 final1;
    Ret (final2, indexes1 ++ indexes2).
Proof.
  induction l1 as [|msgLen l1 IH]; intros l2 cursor; simpl.
  - bind_steps. by destruct (packer_run k l2 cursor) as [[? ?]| |].
  - destruct (NextAlignedPowerOfTwo cursor msgLen k) as [[start fits]| |];
      [|done|done].
    bind_steps. rewrite IH.
    destruct (packer_run k l1 (add start msgLen)) as [[final1 indexes1]| |];
      [|done|done].
    bind_steps.
    by destruct (packer_run k l2 final1) as [[final2 indexes2]| |].
Qed.

Lemma packer_run_final_int k msgShareLens : ∀ cursor final indexes,
  is_int cursor →
  packer_run k msgShareLens cursor = Ret (final, indexes) → is_int final.
Proof.
  induction msgShareLens as [|msgLen lens IH]; intros cursor final indexes Hc; simpl.
  - by intros [= <- _].
  - destruct (NextAlignedPowerOfTwo cursor msgLen k) as [[start fits]| |];
      [|done|done].
    bind_steps.
    destruct (packer_run k lens (add start msgLen)) as [[final' indexes']| |] eqn:Hrun;
      [|done|done].
    bind_steps. intros [= <- _]. eapply IH; [|done]. apply wrap_is_int.
Qed.

(** X17: packing composes: for an [int] cursor, packing the lists l1 ++ l2
    is packing l1 and then packing l2 from where l1 ended; the index lists
    are concatenated and the share counts added.  This holds with Go's
    wrapping arithmetic, without any bound. *)
Theorem MsgSharesUsedNIDefaults_app cursor k l1 l2 :
  is_int cursor →
  MsgSharesUsedNIDefaults cursor k (l1 ++ l2)
  = '(total1, indexes1) ← MsgSharesUsedNIDefaults cursor k l1;
    '(total2, indexes2) ← MsgSharesUsedNIDefaults (add cursor total1) k l2;
    Ret (add total1 total2, indexes1 ++ indexes2).
Proof.
  intros Hc. rewrite !MsgSharesUsedNIDefaults_run, packer_run_app.
  destruct (packer_run k l1 cursor) as [[final1 indexes1]| |] eqn:Hrun1;
    [|done|done].
  bind_steps.
  pose proof (packer_run_final_int _ _ _ _ _ Hc Hrun1) as Hint1.
  assert (add cursor (sub final1 cursor) = final1) as ->.
  { unfold add, sub. rewrite wrap_add_wrap_r.
    replace (cursor + (final1 - cursor)) with final1 by lia. by apply wrap_small. }
  rewrite MsgSharesUsedNIDefaults_run.
  destruct (packer_run k l2 final1) as [[final2 indexes2]| |]; [|done|done].
  bind_steps. do 2 f_equal. unfold add, sub.
  rewrite wrap_add_wrap_l, wrap_add_wrap_r. f_equal. lia.
Qed.

Lemma MsgSharesUsedNIDefaults_app_witness :
  is_int 1
  ∧ MsgSharesUsedNIDefaults 1 4 ([2; 3] ++ [1])
    = '(total1, indexes1) ← MsgSharesUsedNIDefaults 1 4 [2; 3];
      '(total2, indexes2) ← MsgSharesUsedNIDefaults (add 1 total1) 4 [1];
      Ret (add total1 total2, indexes1 ++ indexes2).
Proof.
  split; [split; by vm_compute|].
  apply (MsgSharesUsedNIDefaults_app 1 4 [2; 3] [1]). split; by vm_compute.
Defined.

Lemma nextAlignedStart_below_row cursor msgLen k :
  0 ≤ cursor → 1 ≤ msgLen → 1 ≤ k →
  cursor ≤ (Spec.nextAlignedStart cursor msgLen k).1 < cursor + k.
Proof.
  intros Hc Hm Hk. unfold Spec.nextAlignedStart.
  pose proof (end_of_row_bounds cursor k Hc ltac:(lia)) as Hend.
  pose proof (largest_pow2_le_bounds msgLen Hm) as Hnl.
  pose proof (round_up_bounds cursor (Spec.largest_pow2_le msgLen) ltac:(lia)) as Hru.
  pose proof (Z.div_mod cursor k ltac:(lia)) as Hdm.
  pose proof (Z.mod_pos_bound cursor k ltac:(lia)) as Hmod.
  destruct (Z.eqb_spec (cursor mod k) 0); [cbn; lia|].
  destruct (Z.leb_spec (Spec.round_up cursor (Spec.largest_pow2_le msgLen) + msgLen)
              ((cursor / k + 1) * k)); [cbn; lia|].
  destruct (Z.leb_spec (Spec.round_up cursor (Spec.largest_pow2_le msgLen)
                        + Spec.largest_pow2_le msgLen)
              ((cursor / k + 1) * k)); cbn; nia.
Qed.

Lemma sum_lens_nonneg msgShareLens :
  Forall (λ msgLen, 1 ≤ msgLen) msgShareLens → 0 ≤ sum_lens msgShareLens.
Proof. intros Hpos. induction Hpos; simpl; lia. Qed.

Lemma padded_total_app k l1 l2 :
  padded_total k (l1 ++ l2) = padded_total k l1 + padded_total k l2.
Proof. induction l1 as [|m l1 IH]; simpl; lia. Qed.

(** The Packer loop in the range free of [int] overflow: where it ends, and
    that every message lies between the cursor and that end. *)
Lemma packer_run_bounds k msgShareLens : ∀ cursor,
  0 ≤ cursor → 1 ≤ k → Forall (λ msgLen, 1 ≤ msgLen) msgShareLens →
  cursor + padded_total k msgShareLens ≤ MaxInt →
  ∃ final indexes,
    packer_run k msgShareLens cursor = Ret (final, indexes)
    ∧ cursor + sum_lens msgShareLens ≤ final
    ∧ final ≤ cursor + sum_lens msgShareLens
              + Z.of_nat (length msgShareLens) * (k - 1)
    ∧ final ≤ cursor + padded_total k msgShareLens.
Proof.
  induction msgShareLens as [|msgLen lens IH]; intros cursor Hc Hk Hpos Hbound.
  - exists cursor, []. simpl. repeat split; lia.
  - inversion Hpos as [|? ? Hm Hpos']; subst. simpl in Hbound.
    pose proof (padded_total_nonneg k lens ltac:(lia) Hpos') as Hpad.
    pose proof (end_of_row_bounds cursor k Hc ltac:(lia)) as Hend.
    cbn [packer_run].
    rewrite NextAlignedPowerOfTwo_refines by lia.
    pose proof (nextAlignedStart_below_row cursor msgLen k Hc Hm Hk) as Hb.
    destruct (Spec.nextAlignedStart cursor msgLen k) as [start fits].
    cbn in Hb. bind_steps.
    rewrite add_small by (unfold is_int, MinInt, MaxInt in *; lia).
    destruct (IH (start + msgLen)) as (final & indexes & -> & Hlo & Hhi & Hpadded);
      [lia | done | done | lia |].
    bind_steps. exists final, (uint32 start :: indexes).
    split; [done|]. cbn [sum_lens foldr length padded_total].
    fold (sum_lens lens). fold (padded_total k lens). lia.
Qed.

(** X18: in the range free of overflow (0 <= cursor, k >= 1, positive
    share-lengths, cursor + sum_i (k + 2 * len_i) <= MaxInt) the share count
    returned by [MsgSharesUsedNIDefaults] is the sum of the share-lengths
    plus the padding, and the padding is at most k - 1 shares per message. *)
Theorem MsgSharesUsedNIDefaults_total_bounds cursor k msgShareLens :
  0 ≤ cursor → 1 ≤ k → Forall (λ msgLen, 1 ≤ msgLen) msgShareLens →
  cursor + padded_total k msgShareLens ≤ MaxInt →
  ∃ total indexes,
    MsgSharesUsedNIDefaults cursor k msgShareLens = Ret (total, indexes)
    ∧ sum_lens msgShareLens ≤ total
    ∧ total ≤ sum_lens msgShareLens + Z.of_nat (length msgShareLens) * (k - 1).
Proof.
  intros Hc Hk Hpos Hbound. rewrite MsgSharesUsedNIDefaults_run.
  destruct (packer_run_bounds k msgShareLens cursor)
    as (final & indexes & -> & Hlo & Hhi & Hpadded); [done..|].
  bind_steps. exists (sub final cursor), indexes. split; [done|].
  pose proof (sum_lens_nonneg _ Hpos).
  unfold sub. rewrite wrap_small by (unfold is_int, MinInt, MaxInt in *; lia). lia.
Qed.

Lemma MsgSharesUsedNIDefaults_total_bounds_witness :
  (0 ≤ 1 ∧ 1 ≤ 4 ∧ Forall (λ msgLen, 1 ≤ msgLen) [2; 3; 1]
   ∧ 1 + padded_total 4 [2; 3; 1] ≤ MaxInt)
  ∧ ∃ total indexes,
      MsgSharesUsedNIDefaults 1 4 [2; 3; 1] = Ret (total, indexes)
      ∧ sum_lens [2; 3; 1] ≤ total
      ∧ total ≤ sum_lens [2; 3; 1] + Z.of_nat (length [2; 3; 1]) * (4 - 1).
Proof.
  assert (Forall (λ msgLen, 1 ≤ msgLen) [2; 3; 1]) as Hpos
    by (repeat constructor; lia).
  split; [split; [lia|]; split; [lia|]; split; [exact Hpos | by vm_compute]|].
  apply (MsgSharesUsedNIDefaults_total_bounds 1 4 [2; 3; 1]);
    [lia | lia | exact Hpos | by vm_compute].
Defined.

Lemma packer_run_ones k (n : nat) : ∀ cursor,
  0 ≤ cursor → 1 ≤ k → cursor + Z.of_nat n + k ≤ MaxUint32 →
  packer_run k (replicate n 1) cursor
  = Ret (cursor + Z.of_nat n, seqZ cursor (Z.of_nat n)).
Proof.
  assert (MaxUint32 ≤ MaxInt) as Hmax by (by vm_compute).
  induction n as [|n IH]; intros cursor Hc Hk Hbound.
  - simpl. by rewrite Z.add_0_r.
  - cbn [replicate packer_run].
    rewrite NextAlignedPowerOfTwo_one by lia. bind_steps.
    rewrite add_small by (unfold is_int, MinInt, MaxInt, MaxUint32 in *; lia).
    rewrite IH by lia. bind_steps.
    rewrite uint32_small by lia.
    rewrite (seqZ_cons cursor (Z.of_nat (S n))) by lia.
    replace (Z.succ cursor) with (cursor + 1) by lia.
    replace (Z.pred (Z.of_nat (S n))) with (Z.of_nat n) by lia.
    do 2 f_equal. lia.
Qed.

(** X19: n messages of one share each are packed back to back: for
    0 <= cursor and k >= 1 with cursor + n + k <= MaxUint32,
    [MsgSharesUsedNIDefaults] returns n shares used and the indexes cursor,
    cursor + 1, ..., cursor + n - 1 (no padding). *)
Theorem MsgSharesUsedNIDefaults_single_shares cursor k (n : nat) :
  0 ≤ cursor → 1 ≤ k → cursor + Z.of_nat n + k ≤ MaxUint32 →
  MsgSharesUsedNIDefaults cursor k (replicate n 1)
  = Ret (Z.of_nat n, seqZ cursor (Z.of_nat n)).
Proof.
  intros Hc Hk Hbound. rewrite MsgSharesUsedNIDefaults_run.
  rewrite packer_run_ones by done. bind_steps. do 2 f_equal.
  unfold sub. replace (cursor + Z.of_nat n - cursor) with (Z.of_nat n) by lia.
  apply wrap_small. unfold is_int, MinInt, MaxInt, MaxUint32 in *. lia.
Qed.

Lemma MsgSharesUsedNIDefaults_single_shares_witness :
  (0 ≤ 3 ∧ 1 ≤ 4 ∧ 3 + Z.of_nat 5 + 4 ≤ MaxUint32)
  ∧ MsgSharesUsedNIDefaults 3 4 (replicate 5 1) = Ret (5, [3; 4; 5; 6; 7]).
Proof.
  split; [repeat split; by vm_compute|].
  apply (MsgSharesUsedNIDefaults_single_shares 3 4 5); by vm_compute.
Defined.

(** ** The fits-in-square predicate *)

Lemma FitsInSquare_nonempty cursor k msgShareLens :
  msgShareLens ≠ [] →
  FitsInSquare cursor k msgShareLens
  = '(final, _) ← packer_run k msgShareLens cursor;
    Ret (add cursor (sub final cursor) <=? mul k k).
Proof.
  intros Hne. unfold FitsInSquare.
  destruct msgShareLens as [|msgLen lens]; [done|].
  rewrite bool_decide_eq_false_2 by done. bind_steps.
  rewrite MsgSharesUsedNIDefaults_run.
  by destruct (packer_run k (msgLen :: lens) cursor) as [[final indexes]| |].
Qed.

Lemma add_sub_cancel cursor final :
  is_int final → add cursor (sub final cursor) = final.
Proof.
  intros Hint. unfold add, sub. rewrite wrap_add_wrap_r.
  replace (cursor + (final - cursor)) with final by lia. by apply wrap_small.
Qed.

Lemma FitsInSquare_empty cursor k :
  0 ≤ cursor ≤ MaxInt → 1 ≤ k → cursor ≤ k * k →
  FitsInSquare cursor k [] = Ret true.
Proof.
  intros Hc Hk Hsq. unfold FitsInSquare. simpl.
  rewrite div_nonneg by lia. bind_steps.
  assert (cursor / k ≤ k) by (apply Z.div_le_upper_bound; lia).
  by destruct (Z.leb_spec (cursor / k) k); [|lia].
Qed.

(** X20: what fits still fits without its last messages.  In the range free
    of overflow (0 <= cursor, k >= 1, positive share-lengths,
    cursor + sum_i (k + 2 * len_i) <= MaxInt), if [FitsInSquare] returns true
    for the share-lengths l1 ++ l2, it returns true for l1, the empty list
    included. *)
Theorem FitsInSquare_prefix cursor k l1 l2 :
  0 ≤ cursor → 1 ≤ k → Forall (λ msgLen, 1 ≤ msgLen) (l1 ++ l2) →
  cursor + padded_total k (l1 ++ l2) ≤ MaxInt →
  FitsInSquare cursor k (l1 ++ l2) = Ret true →
  FitsInSquare cursor k l1 = Ret true.
Proof.
  intros Hc Hk [Hpos1 Hpos2]%Forall_app Hbound Hfits.
  rewrite padded_total_app in Hbound.
  pose proof (padded_total_nonneg k l1 ltac:(lia) Hpos1) as Hpad1.
  pose proof (padded_total_nonneg k l2 ltac:(lia) Hpos2) as Hpad2.
  pose proof (sum_lens_nonneg _ Hpos1) as Hsum1.
  pose proof (sum_lens_nonneg _ Hpos2) as Hsum2.
  destruct (packer_run_bounds k l1 cursor)
    as (final1 & indexes1 & Hrun1 & Hlo1 & _ & Hhi1); [done | done | done | lia |].
  destruct (packer_run_bounds k l2 final1)
    as (final2 & indexes2 & Hrun2 & Hlo2 & _ & Hhi2); [lia | done | done | lia |].
  destruct l2 as [|msgLen2 l2]; [by rewrite app_nil_r in Hfits|].
  assert (FitsInSquare cursor k (l1 ++ msgLen2 :: l2)
          = Ret (final2 <=? mul k k)) as Heq.
  { rewrite FitsInSquare_nonempty by (by destruct l1).
    rewrite packer_run_app, Hrun1. bind_steps. rewrite Hrun2. bind_steps.
    by rewrite add_sub_cancel by (unfold is_int, MinInt, MaxInt in *; lia). }
  rewrite Heq in Hfits. injection Hfits as Hfits.
  apply Z.leb_le in Hfits.
  pose proof (wrap_le (k * k) ltac:(nia)) as Hwrap. unfold mul in Hfits.
  destruct l1 as [|msgLen1 l1].
  - simpl in Hrun1. injection Hrun1 as <- <-.
    apply FitsInSquare_empty; lia.
  - rewrite FitsInSquare_nonempty, Hrun1 by done. bind_steps.
    rewrite add_sub_cancel by (unfold is_int, MinInt, MaxInt in *; lia).
    f_equal. apply Z.leb_le. unfold mul. lia.
Qed.

Lemma FitsInSquare_prefix_witness :
  (0 ≤ 0 ∧ 1 ≤ 4 ∧ Forall (λ msgLen, 1 ≤ msgLen) ([3; 2] ++ [5; 1])
   ∧ 0 + padded_total 4 ([3; 2] ++ [5; 1]) ≤ MaxInt
   ∧ FitsInSquare 0 4 ([3; 2] ++ [5; 1]) = Ret true)
  ∧ FitsInSquare 0 4 [3; 2] = Ret true.
Proof.
  assert (Forall (λ msgLen, 1 ≤ msgLen) ([3; 2] ++ [5; 1])) as Hpos
    by (repeat constructor; lia).
  split; [split; [lia|]; split; [lia|]; split; [exact Hpos|];
          split; [by vm_compute | reflexivity]|].
  apply (FitsInSquare_prefix 0 4 [3; 2] [5; 1]);
    [lia | lia | exact Hpos | by vm_compute | reflexivity].
Defined.

Lemma packer_run_within k msgShareLens : ∀ cursor,
  0 ≤ cursor → 1 ≤ k → Forall (λ msgLen, 1 ≤ msgLen) msgShareLens →
  cursor + padded_total k msgShareLens ≤ MaxUint32 →
  ∃ final indexes,
    packer_run k msgShareLens cursor = Ret (final, indexes)
    ∧ cursor ≤ final ≤ MaxUint32
    ∧ ∀ i start msgLen,
        indexes !! i = Some start → msgShareLens !! i = Some msgLen →
        cursor ≤ start ∧ start + msgLen ≤ final.
Proof.
  assert (MaxUint32 ≤ MaxInt) as Hmax by (by vm_compute).
  induction msgShareLens as [|msgLen lens IH]; intros cursor Hc Hk Hpos Hbound.
  - exists cursor, []. simpl in *. split; [done|]. split; [lia | done].
  - inversion Hpos as [|? ? Hm Hpos']; subst. simpl in Hbound.
    pose proof (padded_total_nonneg k lens ltac:(lia) Hpos') as Hpad.
    pose proof (end_of_row_bounds cursor k Hc ltac:(lia)) as Hend.
    cbn [packer_run].
    rewrite NextAlignedPowerOfTwo_refines by lia.
    pose proof (nextAlignedStart_below_row cursor msgLen k Hc Hm Hk) as Hb.
    destruct (Spec.nextAlignedStart cursor msgLen k) as [start fits].
    cbn in Hb. bind_steps.
    rewrite add_small by (unfold is_int, MinInt, MaxInt, MaxUint32 in *; lia).
    destruct (IH (start + msgLen)) as (final & indexes & -> & Hfinal & Hin);
      [lia | done | done | lia |].
    bind_steps. exists final, (uint32 start :: indexes).
    rewrite uint32_small by lia.
    split; [done|]. split; [lia|].
    intros [|i] s m; simpl.
    + intros [= <-] [= <-]. lia.
    + intros Hs Hm'. destruct (Hin i s m Hs Hm'). lia.
Qed.

(** X24: when [FitsInSquare] returns true for a non-empty list of positive
    share-lengths (0 <= cursor, k >= 1, cursor + sum_i (k + 2 * len_i) <=
    MaxUint32), every message lies inside the square at the index the Packer
    gives it: cursor <= indexes[i] and indexes[i] + len_i <= k * k. *)
Theorem FitsInSquare_messages_inside cursor k msgShareLens :
  0 ≤ cursor → 1 ≤ k → Forall (λ msgLen, 1 ≤ msgLen) msgShareLens →
  msgShareLens ≠ [] →
  cursor + padded_total k msgShareLens ≤ MaxUint32 →
  FitsInSquare cursor k msgShareLens = Ret true →
  ∃ total indexes,
    MsgSharesUsedNIDefaults cursor k msgShareLens = Ret (total, indexes)
    ∧ cursor + total ≤ k * k
    ∧ ∀ i start msgLen,
        indexes !! i = Some start → msgShareLens !! i = Some msgLen →
        cursor ≤ start ∧ start + msgLen ≤ k * k.
Proof.
  intros Hc Hk Hpos Hne Hbound Hfits.
  assert (MaxUint32 ≤ MaxInt) as Hmax by (by vm_compute).
  destruct (packer_run_within k msgShareLens cursor)
    as (final & indexes & Hrun & Hfinal & Hin); [done..|].
  assert (FitsInSquare cursor k msgShareLens = Ret (final <=? mul k k)) as Heq.
  { rewrite FitsInSquare_nonempty, Hrun by done. bind_steps.
    by rewrite add_sub_cancel by (unfold is_int, MinInt, MaxInt in *; lia). }
  rewrite Heq in Hfits. injection Hfits as Hfits.
  apply Z.leb_le in Hfits.
  pose proof (wrap_le (k * k) ltac:(nia)) as Hwrap. unfold mul in Hfits.
  rewrite MsgSharesUsedNIDefaults_run, Hrun. bind_steps.
  exists (sub final cursor), indexes. split; [done|].
  unfold sub. rewrite wrap_small by (unfold is_int, MinInt, MaxInt in *; lia).
  split; [lia|].
  intros i s m Hs Hm. destruct (Hin i s m Hs Hm). lia.
Qed.

Lemma FitsInSquare_messages_inside_witness :
  (0 ≤ 1 ∧ 1 ≤ 4 ∧ Forall (λ msgLen, 1 ≤ msgLen) [2; 3; 1] ∧ [2; 3; 1] ≠ []
   ∧ 1 + padded_total 4 [2; 3; 1] ≤ MaxUint32
   ∧ FitsInSquare 1 4 [2; 3; 1] = Ret true)
  ∧ ∃ total indexes,
      MsgSharesUsedNIDefaults 1 4 [2; 3; 1] = Ret (total, indexes)
      ∧ 1 + total ≤ 4 * 4
      ∧ ∀ i start msgLen,
          indexes !! i = Some start → [2; 3; 1] !! i = Some msgLen →
          1 ≤ start ∧ start + msgLen ≤ 4 * 4.
Proof.
  assert (Forall (λ msgLen, 1 ≤ msgLen) [2; 3; 1]) as Hpos
    by (repeat constructor; lia).
  split; [split; [lia|]; split; [lia|]; split; [exact Hpos|]; split; [done|];
          split; [by vm_compute | reflexivity]|].
  apply (FitsInSquare_messages_inside 1 4 [2; 3; 1]);
    [lia | lia | exact Hpos | done | by vm_compute | reflexivity].
Defined.

(** ** Splitter *)

Section SplitterFurther.

Context `{codec : ShareCodec}.

(** X22: when [SplitMessagesUsingNIDefaults] returns no error, its index
    list is not nil and has one entry more than there are messages. *)
Theorem SplitMessagesUsingNIDefaults_index_count cursor k msgs rawShares indexes :
  SplitMessagesUsingNIDefaults cursor k msgs = Ret (rawShares, indexes, None) →
  ∃ l, indexes = Some l ∧ length l = S (length msgs).
Proof.
  unfold SplitMessagesUsingNIDefaults. intros Hsplit.
  destruct (splitter_loop_indexes _ _ _ _ _ _ _ Hsplit) as (final & packed & Hrun & ->).
  eexists. split; [done|]. simpl. f_equal.
  apply packer_run_length in Hrun. unfold share_lens in Hrun.
  by rewrite length_fmap in Hrun.
Qed.

(** The loop runs to its end without error when the Packer, from the same
    cursor, ends inside the square. *)
Lemma splitter_loop_inside k msgs : ∀ cursor splitter indexes,
  0 ≤ cursor → 1 ≤ k →
  Forall (λ msg, 1 ≤ MsgSharesUsed (len_Data msg)) msgs →
  cursor + padded_total k (share_lens msgs) ≤ MaxInt →
  (∀ final packed,
     packer_run k (share_lens msgs) cursor = Ret (final, packed) → final ≤ k * k) →
  ∃ rawShares out,
    splitter_loop k msgs cursor splitter indexes = Ret (rawShares, Some out, None).
Proof.
  induction msgs as [|msg rest IH]; intros cursor splitter indexes Hc Hk Hsizes Hbound Hin.
  - simpl. eauto.
  - inversion Hsizes as [|? ? Hm Hsizes']; subst.
    assert (Forall (λ msgLen, 1 ≤ msgLen) (share_lens (msg :: rest))) as Hpos.
    { unfold share_lens. by apply Forall_fmap. }
    assert (Forall (λ msgLen, 1 ≤ msgLen) (share_lens rest)) as Hpos'.
    { unfold share_lens. by apply Forall_fmap. }
    destruct (packer_run_bounds k (share_lens (msg :: rest)) cursor)
      as (final & packed & Hrun & Hlo & _); [done..|].
    pose proof (Hin _ _ Hrun) as Hfinal.
    pose proof (sum_lens_nonneg _ Hpos) as Hsum.
    change (share_lens (msg :: rest))
      with (MsgSharesUsed (len_Data msg) :: share_lens rest) in Hbound, Hrun.
    change (padded_total k (MsgSharesUsed (len_Data msg) :: share_lens rest))
      with (k + 2 * MsgSharesUsed (len_Data msg) + padded_total k (share_lens rest))
      in Hbound.
    pose proof (padded_total_nonneg k (share_lens rest) ltac:(lia) Hpos') as Hpad.
    pose proof (end_of_row_bounds cursor k Hc ltac:(lia)) as Hend.
    cbn [splitter_loop].
    rewrite div_nonneg by lia. bind_steps.
    assert (cursor / k ≤ k) by (apply Z.div_le_upper_bound; lia).
    destruct (Z.gtb_spec (cursor / k) k); [lia|].
    cbn [packer_run] in Hrun. revert Hrun.
    rewrite NextAlignedPowerOfTwo_refines by lia.
    pose proof (nextAlignedStart_below_row cursor (MsgSharesUsed (len_Data msg)) k
                  Hc Hm Hk) as Hb.
    destruct (Spec.nextAlignedStart cursor (MsgSharesUsed (len_Data msg)) k)
      as [start fits].
    cbn in Hb. bind_steps.
    rewrite add_small by (unfold is_int, MinInt, MaxInt in *; lia).
    intros Hrun.
    apply IH; [lia | done | done | lia |].
    intros final' packed' Hrun'.
    revert Hrun. rewrite Hrun'. bind_steps.
    by intros [= <- _].
Qed.

(** X21: a list that passed [FitsInSquare] is split without error.  For
    0 <= cursor, k >= 1, messages of at least one share each and
    cursor + sum_i (k + 2 * shares_i) <= MaxInt: if [FitsInSquare] returns
    true for the share counts of the messages, [SplitMessagesUsingNIDefaults]
    returns raw shares and indexes with a nil error. *)
Theorem FitsInSquare_then_split cursor k msgs :
  0 ≤ cursor → 1 ≤ k →
  Forall (λ msg, 1 ≤ MsgSharesUsed (len_Data msg)) msgs →
  cursor + padded_total k (share_lens msgs) ≤ MaxInt →
  FitsInSquare cursor k (share_lens msgs) = Ret true →
  ∃ rawShares indexes,
    SplitMessagesUsingNIDefaults cursor k msgs = Ret (rawShares, Some indexes, None).
Proof.
  intros Hc Hk Hsizes Hbound Hfits. unfold SplitMessagesUsingNIDefaults.
  destruct msgs as [|msg rest]; [simpl; by eauto|].
  apply splitter_loop_inside; [done..|].
  intros final packed Hrun.
  assert (Forall (λ msgLen, 1 ≤ msgLen) (share_lens (msg :: rest))) as Hpos.
  { unfold share_lens. by apply Forall_fmap. }
  destruct (packer_run_bounds k (share_lens (msg :: rest)) cursor)
    as (final' & packed' & Hrun' & Hlo & _ & Hhi); [done..|].
  pose proof (sum_lens_nonneg _ Hpos) as Hsum.
  rewrite Hrun in Hrun'. injection Hrun' as <- <-.
  assert (FitsInSquare cursor k (share_lens (msg :: rest))
          = Ret (final <=? mul k k)) as Heq.
  { rewrite FitsInSquare_nonempty, Hrun by done. bind_steps.
    by rewrite add_sub_cancel by (unfold is_int, MinInt, MaxInt in *; lia). }
  rewrite Heq in Hfits. injection Hfits as Hfits. apply Z.leb_le in Hfits.
  pose proof (wrap_le (k * k) ltac:(nia)) as Hwrap. unfold mul in Hfits. lia.
Qed.

(** X23: the row check lets a message start in the row after the last one
    of the square.  For k >= 1, a cursor with k * k <= cursor < k * k + k
    and a message of m >= 1 shares with cursor + k + 2 * m <= MaxUint32, the
    Splitter returns no error and places the message at a start >= k * k,
    although [FitsInSquare] returns false for it. *)
Theorem SplitMessagesUsingNIDefaults_beyond_square cursor k msg :
  1 ≤ k → k * k ≤ cursor < k * k + k →
  1 ≤ MsgSharesUsed (len_Data msg) →
  cursor + k + 2 * MsgSharesUsed (len_Data msg) ≤ MaxUint32 →
  (∃ rawShares start,
     SplitMessagesUsingNIDefaults cursor k [msg]
     = Ret (rawShares, Some [cursor; start], None)
     ∧ k * k ≤ start)
  ∧ FitsInSquare cursor k [MsgSharesUsed (len_Data msg)] = Ret false.
Proof.
  intros Hk Hc Hm Hbound.
  assert (MaxUint32 ≤ MaxInt) as Hmax by (by vm_compute).
  assert (0 ≤ cursor) as Hc0 by nia.
  pose proof (end_of_row_bounds cursor k Hc0 ltac:(lia)) as Hend.
  pose proof (nextAlignedStart_below_row cursor (MsgSharesUsed (len_Data msg)) k
                Hc0 Hm Hk) as Hb.
  assert (cursor / k = k) as Hrow.
  { symmetry. apply (Z.div_unique cursor k k (cursor - k * k)); lia. }
  split.
  - unfold SplitMessagesUsingNIDefaults. cbn [splitter_loop].
    rewrite div_nonneg by lia. bind_steps. rewrite Hrow.
    destruct (Z.gtb_spec k k); [lia|].
    rewrite NextAlignedPowerOfTwo_refines by lia.
    destruct (Spec.nextAlignedStart cursor (MsgSharesUsed (len_Data msg)) k)
      as [start fits].
    cbn in Hb. bind_steps. eexists _, start.
    rewrite !uint32_small by lia. split; [done | lia].
  - rewrite FitsInSquare_nonempty by done. cbn [packer_run].
    rewrite NextAlignedPowerOfTwo_refines by lia.
    destruct (Spec.nextAlignedStart cursor (MsgSharesUsed (len_Data msg)) k)
      as [start fits].
    cbn in Hb. bind_steps.
    rewrite (add_small start)
      by (unfold is_int, MinInt, MaxInt, MaxUint32 in *; lia).
    rewrite add_sub_cancel by (unfold is_int, MinInt, MaxInt, MaxUint32 in *; lia).
    f_equal. apply Z.leb_gt.
    pose proof (wrap_le (k * k) ltac:(nia)) as Hwrap. unfold mul. lia.
Qed.

End SplitterFurther.

Lemma SplitMessagesUsingNIDefaults_index_count_witness :
  SplitMessagesUsingNIDefaults (codec := example_codec) 2 4 example_msgs
  = Ret (Some [[x0a; x0b; x0c]; []; [x10; x11; x12; x13]; [x14]],
         Some [2; 2; 4], None)
  ∧ ∃ l, Some [2; 2; 4] = Some l ∧ length l = S (length example_msgs).
Proof.
  split; [reflexivity|].
  apply (SplitMessagesUsingNIDefaults_index_count (codec := example_codec)
           2 4 example_msgs _ _ eq_refl).
Defined.

Lemma FitsInSquare_then_split_witness :
  (0 ≤ 2 ∧ 1 ≤ 4
   ∧ Forall (λ msg, 1 ≤ MsgSharesUsed (ShareCodec := example_codec) (len_Data msg))
       example_msgs
   ∧ 2 + padded_total 4 (share_lens (codec := example_codec) example_msgs) ≤ MaxInt
   ∧ FitsInSquare 2 4 (share_lens (codec := example_codec) example_msgs) = Ret true)
  ∧ ∃ rawShares indexes,
      SplitMessagesUsingNIDefaults (codec := example_codec) 2 4 example_msgs
      = Ret (rawShares, Some indexes, None).
Proof.
  assert (Forall (λ msg, 1 ≤ MsgSharesUsed (ShareCodec := example_codec) (len_Data msg))
            example_msgs) as Hsizes by (repeat constructor; by vm_compute).
  split; [split; [lia|]; split; [lia|]; split; [exact Hsizes|];
          split; [by vm_compute | reflexivity]|].
  apply (FitsInSquare_then_split (codec := example_codec) 2 4 example_msgs);
    [lia | lia | exact Hsizes | by vm_compute | reflexivity].
Defined.

Lemma SplitMessagesUsingNIDefaults_beyond_square_witness :
  (1 ≤ 4 ∧ 4 * 4 ≤ 17 < 4 * 4 + 4
   ∧ 1 ≤ MsgSharesUsed (ShareCodec := example_codec)
           (len_Data {| NamespaceID := [x01]; Data := [x0a; x0b; x0c] |})
   ∧ 17 + 4 + 2 * MsgSharesUsed (ShareCodec := example_codec)
                    (len_Data {| NamespaceID := [x01]; Data := [x0a; x0b; x0c] |})
     ≤ MaxUint32)
  ∧ (∃ rawShares start,
       SplitMessagesUsingNIDefaults (codec := example_codec) 17 4
         [ {| NamespaceID := [x01]; Data := [x0a; x0b; x0c] |} ]
       = Ret (rawShares, Some [17; start], None)
       ∧ 4 * 4 ≤ start)
  ∧ FitsInSquare 17 4
      [MsgSharesUsed (ShareCodec := example_codec)
         (len_Data {| NamespaceID := [x01]; Data := [x0a; x0b; x0c] |})]
    = Ret false.
Proof.
  split; [repeat split; by vm_compute|].
  apply (SplitMessagesUsingNIDefaults_beyond_square (codec := example_codec) 17 4
           {| NamespaceID := [x01]; Data := [x0a; x0b; x0c] |});
    repeat split; by vm_compute.
Defined.
